(** * Geenie risk engine: the analytics of [app.py], embedded and verified

    The script [app.py] loads a CSV, detects its date column, derives a
    price series, computes return, volatility, drawdown and volatility
    regimes, flags stress periods and projects percentile bands by Monte
    Carlo simulation.

    Numbers.  A pandas cell is a float64.  We keep its special values and
    drop its rounding: a cell is a finite rational, an infinity or NaN
    ([fval]); finite arithmetic is exact, zero is unsigned and nothing
    overflows.  NaN is what pandas treats as a missing value ([dropna],
    [rolling], [mean] of nothing).  Prices read from the file are finite
    ([list Q]), and so are the deviates of the random generator; what the
    script derives from them may be infinite or NaN.  Numeric equality of
    finite values is [Qeq].  Where a property below states a finite value,
    it is the exact value, which the float of the script approximates. *)

From Stdlib Require Import String ZArith QArith Qround Lia Lqa Bool Arith.
From Stdlib Require Import List Sorted.
Import ListNotations.

Open Scope Q_scope.

(** ** Float cells *)

Inductive fval : Type :=
| Fin (q : Q)
| PInf
| NInf
| NaN.

Definition Qltb (x y : Q) : bool := negb (Qle_bool y x).

Definition isna (x : fval) : bool :=
  match x with NaN => true | _ => false end.

Definition notna (x : fval) : bool := negb (isna x).

(** Sign of a cell that is not NaN, as a [comparison] with zero. *)
Definition fsign (x : fval) : comparison :=
  match x with
  | Fin q => q ?= 0
  | PInf => Gt
  | NInf => Lt
  | NaN => Eq
  end.

Definition sign_mul (a b : comparison) : comparison :=
  match a, b with
  | Eq, _ | _, Eq => Eq
  | Gt, Gt | Lt, Lt => Gt
  | _, _ => Lt
  end.

(** An infinity of the given sign; a zero sign is the invalid operation. *)
Definition inf_of_sign (c : comparison) : fval :=
  match c with Gt => PInf | Lt => NInf | Eq => NaN end.

Definition fopp (x : fval) : fval :=
  match x with
  | Fin q => Fin (- q)
  | PInf => NInf
  | NInf => PInf
  | NaN => NaN
  end.

Definition fadd (x y : fval) : fval :=
  match x, y with
  | NaN, _ | _, NaN => NaN
  | Fin a, Fin b => Fin (a + b)
  | PInf, NInf | NInf, PInf => NaN
  | PInf, _ | _, PInf => PInf
  | NInf, _ | _, NInf => NInf
  end.

Definition fsub (x y : fval) : fval := fadd x (fopp y).

Definition fmul (x y : fval) : fval :=
  match x, y with
  | NaN, _ | _, NaN => NaN
  | Fin a, Fin b => Fin (a * b)
  | _, _ => inf_of_sign (sign_mul (fsign x) (fsign y))
  end.

Definition fdiv (x y : fval) : fval :=
  match x, y with
  | NaN, _ | _, NaN => NaN
  | Fin a, Fin b =>
      if Qeq_bool b 0 then inf_of_sign (a ?= 0) else Fin (a / b)
  | Fin _, _ => Fin 0
  | _, Fin b =>
      if Qeq_bool b 0 then x else inf_of_sign (sign_mul (fsign x) (b ?= 0))
  | _, _ => NaN
  end.

Fixpoint fpow (x : fval) (n : nat) : fval :=
  match n with
  | O => Fin 1
  | S k => fmul x (fpow x k)
  end.

(** Comparisons are false as soon as one side is NaN. *)
Definition flt (x y : fval) : bool :=
  match x, y with
  | NaN, _ | _, NaN => false
  | Fin a, Fin b => Qltb a b
  | NInf, NInf => false
  | NInf, _ => true
  | _, PInf => match x with PInf => false | _ => true end
  | _, _ => false
  end.

Definition fgt (x y : fval) : bool := flt y x.

Definition fle (x y : fval) : bool :=
  match x, y with
  | NaN, _ | _, NaN => false
  | Fin a, Fin b => Qle_bool a b
  | NInf, _ => true
  | _, PInf => true
  | _, _ => false
  end.

(** Numeric equality of cells: [Qeq] on finite values, identity elsewhere
    (NaN is related to NaN: this is equality of results, not [==] of
    floats). *)
Definition feq (x y : fval) : Prop :=
  match x, y with
  | Fin a, Fin b => a == b
  | PInf, PInf | NInf, NInf | NaN, NaN => True
  | _, _ => False
  end.

(** ** pandas Series, by position *)

Definition series := list fval.

Definition to_series (prices : list Q) : series := map Fin prices.

Definition dropna (s : series) : series := filter notna s.

(** [Series.shift(1)]: same length, a NaN enters in front. *)
Definition shift1 (s : series) : series :=
  match s with
  | [] => []
  | _ :: _ => NaN :: removelast s
  end.

Fixpoint map2 {A B C : Type} (f : A -> B -> C) (l : list A) (m : list B)
  : list C :=
  match l, m with
  | a :: l', b :: m' => f a b :: map2 f l' m'
  | _, _ => []
  end.

(** [Series.pct_change()]: [data / data.shift(1) - 1]. *)
Definition pct_change (s : series) : series :=
  map2 (fun cur prev => fsub (fdiv cur prev) (Fin 1)) s (shift1 s).

(** Line 94: [returns = price_series.pct_change().dropna()]. *)
Definition returns (price_series : list Q) : series :=
  dropna (pct_change (to_series price_series)).

(** ** Descriptive statistics (pandas reductions skip NaN) *)

Definition Qnat (n : nat) : Q := inject_Z (Z.of_nat n).

Definition fsum (s : series) : fval := fold_left fadd s (Fin 0).

(** [Series.count()]: the number of cells that are not NaN. *)
Definition count (s : series) : nat := length (dropna s).

(** [Series.mean()]: sum over count of the present cells, NaN when there
    is none. *)
Definition mean (s : series) : fval :=
  let xs := dropna s in
  if (0 <? length xs)%nat then fdiv (fsum xs) (Fin (Qnat (length xs)))
  else NaN.

Definition sq_dev (avg x : fval) : fval :=
  let d := fsub avg x in fmul d d.

(** [Series.var()] with pandas' default [ddof = 1]: NaN unless at least two
    cells are present. *)
Definition var (s : series) : fval :=
  let xs := dropna s in
  if (length xs <=? 1)%nat then NaN
  else fdiv (fsum (map (sq_dev (mean xs)) xs))
            (Fin (Qnat (length xs - 1))).

(** Minimum of the present cells ([Series.min()]), NaN when there is
    none. *)
Definition series_min (s : series) : fval :=
  match dropna s with
  | [] => NaN
  | x :: t => fold_left (fun m y => if flt y m then y else m) t x
  end.

(** Mean of a boolean Series: the fraction of [True], NaN when empty. *)
Definition bool_mean (bs : list bool) : fval :=
  if (0 <? length bs)%nat
  then Fin (Qnat (length (filter (fun b => b) bs)) / Qnat (length bs))
  else NaN.

(** [Series.cummax()]: running maximum; a NaN cell stays NaN and is
    skipped. [m] is the maximum so far, if any cell was seen. *)
Fixpoint cummax_from (m : option fval) (s : series) : series :=
  match s with
  | [] => []
  | x :: t =>
      if isna x then NaN :: cummax_from m t
      else
        let m' := match m with
                  | None => x
                  | Some v => if flt v x then x else v
                  end in
        m' :: cummax_from (Some m') t
  end.

Definition cummax (s : series) : series := cummax_from None s.

(** Insertion sort of cells by [fle]; used on NaN-free data only. *)
Fixpoint finsert (x : fval) (l : list fval) : list fval :=
  match l with
  | [] => [x]
  | y :: t => if fle x y then x :: l else y :: finsert x t
  end.

Definition fsort (l : list fval) : list fval := fold_right finsert [] l.

(** [Series.median()]: middle of the sorted present cells. *)
Definition median (s : series) : fval :=
  let xs := fsort (dropna s) in
  let n := length xs in
  if (n =? 0)%nat then NaN
  else if Nat.odd n then nth (n / 2) xs NaN
  else fdiv (fadd (nth (n / 2 - 1) xs NaN) (nth (n / 2) xs NaN)) (Fin 2).

(** Rows [max 0 (i - w + 1) .. i] of the series. *)
Definition window_at (w i : nat) (s : series) : series :=
  skipn (i + 1 - w) (firstn (i + 1) s).

(** ** Risk metrics, regimes and stress periods (lines 94-114) *)

Record RiskMetrics : Type := mkRiskMetrics {
  annual_return : fval;
  annual_volatility : fval;
  max_drawdown : fval;
  down_days_pct : fval
}.

Inductive RegimeLabel : Type :=
| HighVolatility   (* "High Volatility" *)
| LowVolatility.   (* "Low Volatility" *)

Definition label_eqb (a b : RegimeLabel) : bool :=
  match a, b with
  | HighVolatility, HighVolatility | LowVolatility, LowVolatility => true
  | _, _ => false
  end.

(** One row of [regime_stats]: the columns mean, std and count. *)
Record stats : Type := mkStats {
  s_mean : fval;
  s_std : fval;
  s_count : nat
}.

(** Line 98: [drawdown = price_series / price_series.cummax() - 1]. *)
Definition drawdown (price_series : list Q) : series :=
  let s := to_series price_series in
  map2 (fun p m => fsub (fdiv p m) (Fin 1)) s (cummax s).

(** Boolean-mask selection [s[mask]], each kept cell with its position. *)
Fixpoint select_from (i : nat) (s : series) (mask : list bool)
  : list (nat * fval) :=
  match s, mask with
  | x :: s', b :: mask' =>
      if b then (i, x) :: select_from (S i) s' mask'
      else select_from (S i) s' mask'
  | _, _ => []
  end.

Definition stress_threshold : Q := - (3 # 10).

(** Line 114: [stress_periods = drawdown[drawdown < -0.3]]. *)
Definition stress_periods (dd : series) : list (nat * fval) :=
  select_from 0 dd (map (fun v => flt v (Fin stress_threshold)) dd).

Section Analytics.

(** [np.sqrt] on a non-negative finite number; the theorems hold for any
    such function. *)
Variable sqrtQ : Q -> Q.

Definition fsqrt (x : fval) : fval :=
  match x with
  | Fin q => if Qltb q 0 then NaN else Fin (sqrtQ q)
  | PInf => PInf
  | NInf | NaN => NaN
  end.

(** [Series.std()]. *)
Definition std (s : series) : fval := fsqrt (var s).

Definition trading_days : nat := 252.

(** Lines 94-100. *)
Definition risk_metrics (price_series : list Q) : RiskMetrics :=
  let rets := returns price_series in
  {| annual_return :=
       fsub (fpow (fadd (Fin 1) (mean rets)) trading_days) (Fin 1);
     annual_volatility := fmul (std rets) (Fin (sqrtQ 252));
     max_drawdown := series_min (drawdown price_series);
     down_days_pct :=
       fmul (bool_mean (map (fun r => flt r (Fin 0)) rets)) (Fin 100) |}.

(** [Series.rolling(w).std()]: [min_periods] defaults to the window, so a
    row whose window holds fewer than [w] present cells is NaN. *)
Definition rolling_std (w : nat) (s : series) : series :=
  map (fun i =>
         let win := window_at w i s in
         if (count win <? w)%nat then NaN else std win)
      (seq 0 (length s)).

(** Line 105. *)
Definition rolling_vol (rets : series) : series :=
  map (fun v => fmul v (Fin (sqrtQ 252))) (rolling_std trading_days rets).

(** Line 106. *)
Definition vol_threshold (rets : series) : fval :=
  median (rolling_vol rets).

(** Line 107: [np.where(rolling_vol > vol_threshold, High, Low)]. *)
Definition regime (rets : series) : list RegimeLabel :=
  let threshold := vol_threshold rets in
  map (fun v => if fgt v threshold then HighVolatility else LowVolatility)
      (rolling_vol rets).

Definition regime_row : Type := (fval * fval * RegimeLabel)%type.

Fixpoint zip3 (r v : series) (g : list RegimeLabel) : list regime_row :=
  match r, v, g with
  | a :: r', b :: v', c :: g' => (a, b, c) :: zip3 r' v' g'
  | _, _, _ => []
  end.

Definition row_complete (row : regime_row) : bool :=
  let '(r, v, _) := row in notna r && notna v.

(** Line 108: the three columns side by side, rows with a NaN dropped. *)
Definition regime_df (rets : series) : list regime_row :=
  filter row_complete (zip3 rets (rolling_vol rets) (regime rets)).

(** The [Returns] cells of the rows carrying label [l]. *)
Definition group_returns (l : RegimeLabel) (rows : list regime_row)
  : series :=
  map (fun row => fst (fst row))
      (filter (fun row => label_eqb (snd row) l) rows).

Definition agg (members : series) : stats :=
  {| s_mean := mean members;
     s_std := std members;
     s_count := count members |}.

(** [groupby("Regime")["Returns"].agg(["mean", "std", "count"])]: one
    row per label that occurs, labels in sorted order. *)
Definition groupby_agg (rows : list regime_row)
  : list (RegimeLabel * stats) :=
  flat_map (fun l =>
              match filter (fun row => label_eqb (snd row) l) rows with
              | [] => []
              | _ :: _ => [(l, agg (group_returns l rows))]
              end)
           [HighVolatility; LowVolatility].

(** Line 109. *)
Definition regime_stats (rets : series) : list (RegimeLabel * stats) :=
  groupby_agg (regime_df rets).

End Analytics.

(** ** Errors the script can raise, and its run on a price series *)

Inductive error : Type :=
| ValueError (msg : string)
| IndexError (msg : string).

(** Calls that may raise are chained with [bind]. *)
Definition result (A : Type) : Type := (error + A)%type.

Definition bind {A B : Type} (c : result A) (k : A -> result B) : result B :=
  match c with
  | inl e => inl e
  | inr a => k a
  end.

Notation "x <- c ;; k" := (bind c (fun x => k))
  (at level 61, c at next level, right associativity).

(** [price_series.iloc[-1]]. *)
Definition iloc_last (price_series : list Q) : result Q :=
  match rev price_series with
  | [] => inl (IndexError "single positional indexer is out-of-bounds")
  | x :: _ => inr x
  end.

(** Lines 180-182: what the simulation is fed with. *)
Record mc_inputs : Type := mkInputs {
  last_price : Q;
  mean_return : fval;
  vol : fval
}.

Section Script.

Variable sqrtQ : Q -> Q.

(** The script from line 94 on: the metrics are computed (and shown)
    first; the only statement after them that can raise on a short
    series is [iloc[-1]] at line 180. *)
Definition analyse (price_series : list Q)
  : RiskMetrics * result mc_inputs :=
  (risk_metrics sqrtQ price_series,
   lp <- iloc_last price_series ;;
   inr {| last_price := lp;
          mean_return := mean (returns price_series);
          vol := std sqrtQ (returns price_series) |}).

End Script.

(** ** Monte Carlo projection (lines 184-201) *)

(** The process-wide generator of [np.random], as the stream of standard
    normal deviates it is going to yield. *)
Definition rng : Type := nat -> Q.

Definition advance (k : nat) (g : rng) : rng := fun i => g (k + i)%nat.

(** [np.random.normal(loc, scale, size)]: a negative scale is refused;
    otherwise [loc + scale * z] for the next [size] deviates, which are
    consumed.  A NaN scale passes the check and makes every sample NaN. *)
Definition draws (loc scale : fval) (size : nat) (g : rng) : series :=
  map (fun i => fadd loc (fmul scale (Fin (g i)))) (seq 0 size).

Definition normal (loc scale : fval) (size : nat) (g : rng)
  : result (series * rng) :=
  if flt scale (Fin 0) then inl (ValueError "scale < 0")
  else inr (draws loc scale size g, advance size g).

Fixpoint cumprod_from (acc : fval) (l : series) : series :=
  match l with
  | [] => []
  | x :: t => let a := fmul acc x in a :: cumprod_from a t
  end.

(** [np.cumprod]. *)
Definition cumprod (l : series) : series :=
  match l with
  | [] => []
  | x :: t => x :: cumprod_from x t
  end.

(** Line 195: [path = last_price * np.cumprod(1 + simulated_returns)]. *)
Definition path_of (lp : Q) (simulated_returns : series) : series :=
  map (fmul (Fin lp)) (cumprod (map (fadd (Fin 1)) simulated_returns)).

(** Lines 192-196: [n] paths of [days] prices, appended in order. *)
Fixpoint simulate_paths (lp : Q) (mu sigma : fval) (days n : nat) (g : rng)
  : result (list series * rng) :=
  match n with
  | O => inr ([], g)
  | S k =>
      drawn <- normal mu sigma days g ;;
      more <- simulate_paths lp mu sigma days k (snd drawn) ;;
      inr (path_of lp (fst drawn) :: fst more, snd more)
  end.

(** numpy's [_lerp]: the weight is applied from the nearer end. *)
Definition flerp (a b : fval) (t : Q) : fval :=
  let diff_b_a := fsub b a in
  if Qle_bool (1 # 2) t then fsub b (fmul diff_b_a (Fin (1 - t)))
  else fadd a (fmul diff_b_a (Fin t)).

(** [np.percentile(a, q)] on one column, method [linear]: the virtual
    index [(n - 1) * q / 100] is split into its floor and its fraction; at
    or above the last index both neighbours are the last cell (the weight
    is then immaterial).  A column holding a NaN gives NaN.  On an empty
    column numpy raises [IndexError]; the script never forms one (the
    slider keeps [num_simulations] within 100..5000), the branch for it
    below only makes the function total. *)
Definition percentile (a : series) (q : Q) : fval :=
  let n := length a in
  if (n =? 0)%nat then NaN
  else if existsb isna a then NaN
  else
    let s := fsort a in
    let virt := Qnat (n - 1) * (q / 100) in
    let prev := Z.to_nat (Qfloor virt) in
    let above := Qle_bool (Qnat (n - 1)) virt in
    let lo := if above then (n - 1)%nat else prev in
    let hi := if above then (n - 1)%nat else S prev in
    flerp (nth lo s NaN) (nth hi s NaN) (virt - Qnat prev).

Definition column (t : nat) (all_paths : list series) : series :=
  map (fun path => nth t path NaN) all_paths.

(** [np.percentile(all_paths, q, axis=0)] for an array of [days] columns
    and at least one row (the slider keeps [num_simulations] within
    100..5000; with no row numpy raises [IndexError]). *)
Definition percentile_axis0 (days : nat) (all_paths : list series) (q : Q)
  : list fval :=
  map (fun t => percentile (column t all_paths) q) (seq 0 days).

Record band : Type := mkBand {
  p5 : list fval;
  p50 : list fval;
  p95 : list fval
}.

Definition reduce_paths (days : nat) (all_paths : list series) : band :=
  {| p5 := percentile_axis0 days all_paths 5;
     p50 := percentile_axis0 days all_paths 50;
     p95 := percentile_axis0 days all_paths 95 |}.

(** The body of the loop over horizons, lines 192-201. *)
Definition simulate (lp : Q) (mu sigma : fval) (days num_simulations : nat)
  (g : rng) : result (band * rng) :=
  sim <- simulate_paths lp mu sigma days num_simulations g ;;
  inr (reduce_paths days (fst sim), snd sim).

Definition forecast_horizons : list (string * nat) :=
  [("Next Day"%string, 1%nat);
   ("Next Month (~21 trading days)"%string, 21%nat);
   ("Next Year (~252 trading days)"%string, 252%nat);
   ("Next 5 Years (~1260 trading days)"%string, (252 * 5)%nat)].

(** Lines 191-201: one simulation per horizon, all drawing from the same
    generator one after the other. *)
Fixpoint run_forecasts (lp : Q) (mu sigma : fval) (num_simulations : nat)
  (horizons : list (string * nat)) (g : rng)
  : result (list (string * band) * rng) :=
  match horizons with
  | [] => inr ([], g)
  | (label, days) :: rest =>
      done <- simulate lp mu sigma days num_simulations g ;;
      more <- run_forecasts lp mu sigma num_simulations rest (snd done) ;;
      inr ((label, fst done) :: fst more, snd more)
  end.

(** The script on a prepared price series: the metrics, then the
    projections of all horizons. *)
Definition run_script (sqrtQ : Q -> Q) (price_series : list Q)
  (num_simulations : nat) (g : rng)
  : RiskMetrics * result (list (string * band) * rng) :=
  (fst (analyse sqrtQ price_series),
   inputs <- snd (analyse sqrtQ price_series) ;;
   run_forecasts (last_price inputs) (mean_return inputs) (vol inputs)
                 num_simulations forecast_horizons g).

(** ** Date-column detection (lines 31-42) *)

Section LoadCsv.

Variable cell : Type.

(** What [pd.to_datetime(..., errors="raise")] does with one cell:
    [None] when it raises, [Some None] for a missing cell (NaT),
    [Some (Some t)] for a timestamp. *)
Variable parse_cell : cell -> option (option Z).

(** The conversion of a whole column raises as soon as one cell does. *)
Fixpoint to_datetime (col : list cell) : option (list (option Z)) :=
  match col with
  | [] => Some []
  | c :: rest =>
      match parse_cell c with
      | None => None
      | Some v =>
          match to_datetime rest with
          | None => None
          | Some vs => Some (v :: vs)
          end
      end
  end.

Definition is_timestamp (v : option Z) : bool :=
  match v with Some _ => true | None => false end.

(** [parsed.notna().sum()]. *)
Definition notna_sum (parsed : list (option Z)) : nat :=
  length (filter is_timestamp parsed).

Definition dataframe : Type := list (string * list cell).

(** [len(df)]: the number of rows. *)
Definition len_df (df : dataframe) : nat :=
  match df with
  | [] => O
  | (_, col) :: _ => length col
  end.

(** The loop of lines 33-40 over the columns that are left. *)
Fixpoint find_date_col (nrows : nat) (cols : dataframe) : option string :=
  match cols with
  | [] => None
  | (name, col) :: rest =>
      match to_datetime col with
      | Some parsed =>
          if Qltb (Qnat nrows * (1 # 2)) (Qnat (notna_sum parsed))
          then Some name
          else find_date_col nrows rest
      | None => find_date_col nrows rest
      end
  end.

Definition detect_date_col (df : dataframe) : error + string :=
  match find_date_col (len_df df) df with
  | Some name => inr name
  | None => inl (ValueError "No valid date column detected.")
  end.

End LoadCsv.

Arguments to_datetime {cell} parse_cell col.
Arguments dataframe cell : clear implicits.
Arguments len_df {cell} df.
Arguments find_date_col {cell} parse_cell nrows cols.
Arguments detect_date_col {cell} parse_cell df.

(** ** Reference notions used in the statements *)

(** The return of each price of [l] on the price before it, [prev] being
    the price before the first. *)
Fixpoint ratios (prev : Q) (l : list Q) : series :=
  match l with
  | [] => []
  | x :: t => fsub (fdiv (Fin x) (Fin prev)) (Fin 1) :: ratios x t
  end.

(** No two consecutive prices are both zero. *)
Definition no_zero_pair (ps : list Q) : Prop :=
  forall i, (S i < length ps)%nat ->
            ~ (nth i ps 0 == 0 /\ nth (S i) ps 0 == 0).

(** [M] is the greatest element of [l]. *)
Definition greatest (M : Q) (l : list Q) : Prop :=
  In M l /\ forall x, In x l -> x <= M.

(** Running maximum of finite prices, [m] being the maximum so far. *)
Fixpoint qcummax_from (m : Q) (l : list Q) : list Q :=
  match l with
  | [] => []
  | x :: t => let m' := if Qltb m x then x else m in m' :: qcummax_from m' t
  end.

Definition qcummax (ps : list Q) : list Q :=
  match ps with
  | [] => []
  | p :: l => p :: qcummax_from p l
  end.

(** Every cell is a finite number. *)
Definition all_finite (s : series) : Prop :=
  forall x, In x s -> exists q, x = Fin q.

(** Every cell is a finite number and none is negative. *)
Definition nonneg_finite (s : series) : Prop :=
  forall x, In x s -> exists q, x = Fin q /\ 0 <= q.

(** Every entry is numerically [c]. *)
Definition all_eq (c : Q) (l : list Q) : Prop := Forall (fun x => x == c) l.

(** The three bands are in order at day-offset [t]. *)
Definition ordered_at (t : nat) (b : band) : Prop :=
  fle (nth t (p5 b) NaN) (nth t (p50 b) NaN) = true /\
  fle (nth t (p50 b) NaN) (nth t (p95 b) NaN) = true.

(** The three bands all equal [c] at day-offset [t]. *)
Definition flat_at (c : Q) (t : nat) (b : band) : Prop :=
  feq (nth t (p5 b) NaN) (Fin c) /\
  feq (nth t (p50 b) NaN) (Fin c) /\
  feq (nth t (p95 b) NaN) (Fin c).

(** Sum of the [count] column of a regime table. *)
Definition total_count (table : list (RegimeLabel * stats)) : nat :=
  fold_right (fun row acc => (s_count (snd row) + acc)%nat) O table.

(** The returns that sit on a row whose volatility is defined and whose
    regime is [l], in series order. *)
Definition defined_members (l : RegimeLabel) (rets vols : series)
  (regs : list RegimeLabel) : series :=
  map fst
      (filter (fun row => notna (fst (snd row)) && label_eqb (snd (snd row)) l)
              (combine rets (combine vols regs))).

(** A row of the regime table out of nested pairs. *)
Definition pack (p : fval * (fval * RegimeLabel))
  : fval * fval * RegimeLabel :=
  (fst p, fst (snd p), snd (snd p)).

(** The three columns of line 108 as nested pairs, before [dropna]. *)
Definition table_rows (sqrtQ : Q -> Q) (rets : series)
  : list (fval * (fval * RegimeLabel)) :=
  combine rets (combine (rolling_vol sqrtQ rets) (regime sqrtQ rets)).

Definition vol_defined (p : fval * (fval * RegimeLabel)) : bool :=
  notna (fst (snd p)).

Definition has_label (l : RegimeLabel) (p : fval * (fval * RegimeLabel))
  : bool :=
  label_eqb (snd (snd p)) l.

(** A cell with its fraction in lowest terms, to display results. *)
Definition fred (x : fval) : fval :=
  match x with
  | Fin q => Fin (Qred q)
  | _ => x
  end.

(** The simulation on finite numbers: what [normal], [cumprod],
    [simulate_paths], [fsort], [flerp], [percentile] and [column] compute
    when every cell is finite. *)
Definition qnormal (mu sigma : Q) (size : nat) (g : rng) : list Q :=
  map (fun i => mu + sigma * g i) (seq 0 size).

Fixpoint qcumprod_from (acc : Q) (l : list Q) : list Q :=
  match l with
  | [] => []
  | x :: t => let a := acc * x in a :: qcumprod_from a t
  end.

Definition qcumprod (l : list Q) : list Q :=
  match l with
  | [] => []
  | x :: t => x :: qcumprod_from x t
  end.

Definition qpath (lp mu sigma : Q) (days : nat) (g : rng) : list Q :=
  map (Qmult lp) (qcumprod (map (Qplus 1) (qnormal mu sigma days g))).

Fixpoint qpaths (lp mu sigma : Q) (days n : nat) (g : rng) : list (list Q) :=
  match n with
  | O => []
  | S k =>
      qpath lp mu sigma days g :: qpaths lp mu sigma days k (advance days g)
  end.

Fixpoint qinsert (x : Q) (l : list Q) : list Q :=
  match l with
  | [] => [x]
  | y :: t => if Qle_bool x y then x :: l else y :: qinsert x t
  end.

Definition qsort (l : list Q) : list Q := fold_right qinsert [] l.

Definition lerp (a b t : Q) : Q :=
  if Qle_bool (1 # 2) t then b - (b - a) * (1 - t) else a + (b - a) * t.

Definition qpercentile (a : list Q) (q : Q) : fval :=
  let n := length a in
  if (n =? 0)%nat then NaN
  else
    let s := qsort a in
    let virt := Qnat (n - 1) * (q / 100) in
    let prev := Z.to_nat (Qfloor virt) in
    let above := Qle_bool (Qnat (n - 1)) virt in
    let lo := if above then (n - 1)%nat else prev in
    let hi := if above then (n - 1)%nat else S prev in
    Fin (lerp (nth lo s 0) (nth hi s 0) (virt - Qnat prev)).

(** What a run hands back, without the generator. *)
Definition outcome {A : Type} (r : result (A * rng)) : result A :=
  match r with
  | inl e => inl e
  | inr out => inr (fst out)
  end.

(** A rational square root by integer square root, six decimals. *)
Definition sqrt_approx (q : Q) : Q :=
  Z.sqrt (Qfloor (q * 1000000000000)) # 1000000.

(** A sample generator stream: -2, -1, 0, 1, ... *)
Definition ramp : rng := fun i => Qnat i - 2.

Section DetectionNotions.

Variable cell : Type.
Variable parse_cell : cell -> option (option Z).

Definition parses (c : cell) : bool :=
  match parse_cell c with Some (Some _) => true | _ => false end.

Definition raises (c : cell) : bool :=
  match parse_cell c with None => true | Some _ => false end.

(** Parsing gives a timestamp on strictly more than half of [nrows]. *)
Definition majority_parses (nrows : nat) (col : list cell) : bool :=
  (nrows <? 2 * length (filter parses col))%nat.

(** What the loop accepts: no cell raises, and a majority parses. *)
Definition qualifies (nrows : nat) (col : list cell) : bool :=
  forallb (fun c => negb (raises c)) col && majority_parses nrows col.

End DetectionNotions.

Arguments parses {cell} parse_cell c.
Arguments raises {cell} parse_cell c.
Arguments majority_parses {cell} parse_cell nrows col.
Arguments qualifies {cell} parse_cell nrows col.

(** Cells of a sample file: empty, a date, or free text. *)
Inductive raw_cell : Type :=
| Empty
| DateText (t : Z)
| FreeText (s : string).

Definition parse_raw (c : raw_cell) : option (option Z) :=
  match c with
  | Empty => Some None
  | DateText t => Some (Some t)
  | FreeText _ => None
  end.

(** A sample file: a date column closed by a "Total" row, and a column
    of notes. *)
Definition sample_frame : dataframe raw_cell :=
  [("Date"%string, [DateText 20240101; DateText 20240102; FreeText "Total"]);
   ("Note"%string, [FreeText "open"; FreeText "hold"; FreeText "sum"])].

(** ** The rest of the script's computation *)

(** Lines 83-89.  [rows] holds, for every row of the windowed frame, its
    cells in the price columns: rows with a missing cell are dropped; with
    one price column the series is that column, otherwise the row-wise
    mean. *)
Definition select_price_series (price_cols : list string)
  (rows : list series) : series :=
  let prices := filter (forallb notna) rows in
  if (length price_cols =? 1)%nat then map (fun row => nth 0 row NaN) prices
  else map mean prices.

(** Lines 131-135: the wording of the risk summary. *)
Inductive RiskClass : Type :=
| HighRisk       (* "high-risk" *)
| ModerateRisk   (* "moderate-risk" *)
| LowRisk.       (* "low-risk" *)

Definition risk_label (annual_volatility : fval) : RiskClass :=
  if fgt annual_volatility (Fin (25 # 100)) then HighRisk
  else if fgt annual_volatility (Fin (15 # 100)) then ModerateRisk
  else LowRisk.

(** ** Further reference notions *)

(** How many times two consecutive prices are both zero, [prev] being the
    price before the first of [l]. *)
Fixpoint zero_pairs_from (prev : Q) (l : list Q) : nat :=
  match l with
  | [] => O
  | x :: t =>
      ((if Qeq_bool prev 0 && Qeq_bool x 0 then 1 else 0)
       + zero_pairs_from x t)%nat
  end.

Definition zero_pairs (ps : list Q) : nat :=
  match ps with
  | [] => O
  | p :: l => zero_pairs_from p l
  end.

(** The price never falls from one row to the next. *)
Definition never_falls (ps : list Q) : Prop :=
  forall i, (S i < length ps)%nat -> nth i ps 0 <= nth (S i) ps 0.

Definition qprod (l : list Q) : Q := fold_right Qmult 1 l.

Fixpoint qpow (x : Q) (n : nat) : Q :=
  match n with
  | O => 1
  | S k => x * qpow x k
  end.

Definition qsum (l : list Q) : Q := fold_right Qplus 0 l.

(** Every cell lies between [a] and [b]. *)
Definition within (a b : Q) (s : series) : Prop :=
  forall x, In x s -> exists v, x = Fin v /\ a <= v <= b.

Definition sum_days (horizons : list (string * nat)) : nat :=
  fold_right (fun h acc => (snd h + acc)%nat) O horizons.

(** The [count] of label [l] in a regime table, 0 when it has no row. *)
Definition label_count (l : RegimeLabel) (table : list (RegimeLabel * stats))
  : nat :=
  fold_right (fun row acc =>
                ((if label_eqb (fst row) l then s_count (snd row) else 0)
                 + acc)%nat)
             O table.

(** Sorted by [fle]. *)
Definition fsorted (l : list fval) : Prop :=
  StronglySorted (fun x y => fle x y = true) l.

(** * Properties *)

(** ** The model at work *)

(** The five-day scenario 100, 102, 101, 105, 103. *)
Example returns_scenario :
  map fred (returns [100; 102; 101; 105; 103])
  = [Fin (1 # 50); Fin (- 1 # 102); Fin (4 # 101); Fin (- 2 # 105)].
Proof. vm_compute. reflexivity. Qed.

Example drawdown_scenario :
  map fred (drawdown [100; 102; 101; 105; 103])
  = [Fin 0; Fin 0; Fin (- 1 # 102); Fin 0; Fin (- 2 # 105)]
  /\ fred (max_drawdown (risk_metrics sqrt_approx [100; 102; 101; 105; 103]))
     = Fin (- 2 # 105).
Proof. split; vm_compute; reflexivity. Qed.

(** A zero price followed by a non-zero one gives an infinite return, which
    [dropna] keeps; two zeros in a row give NaN, which it drops. *)
Example returns_after_zero :
  returns [0; 5] = [PInf] /\ returns [0; 0; 5] = [PInf].
Proof. split; vm_compute; reflexivity. Qed.

Example stress_scenario :
  stress_periods [Fin 0; Fin (- 1 # 2); NaN; Fin (- 3 # 10); Fin (- 31 # 100)]
  = [(1%nat, Fin (- 1 # 2)); (4%nat, Fin (- 31 # 100))].
Proof. vm_compute. reflexivity. Qed.

Example percentile_scenario :
  fred (percentile [Fin 3; Fin 1; Fin 2; Fin 10] 50) = Fin (5 # 2)
  /\ fred (percentile [Fin 3; Fin 1; Fin 2; Fin 10] 95) = Fin (179 # 20)
  /\ percentile [Fin 3; NaN; Fin 2] 50 = NaN.
Proof. repeat split; vm_compute; reflexivity. Qed.

(** A column with a missing cell still qualifies; the first qualifying
    column wins. *)
Example detect_scenario :
  detect_date_col parse_raw
    [("Id"%string, [FreeText "a"; FreeText "b"; FreeText "c"]);
     ("Day"%string, [DateText 1; Empty; DateText 3]);
     ("Settled"%string, [DateText 2; DateText 3; DateText 4])]
  = inr "Day"%string.
Proof. reflexivity. Qed.

(** ** Cells and comparisons *)

Lemma Qltb_lt (x y : Q) : Qltb x y = true <-> x < y.
Proof.
  unfold Qltb. rewrite negb_true_iff.
  destruct (Qle_bool y x) eqn:E.
  - apply Qle_bool_iff in E. split; [discriminate | intro H; lra].
  - split; [intros _ | reflexivity].
    apply Qnot_le_lt. intro H. apply Qle_bool_iff in H. congruence.
Qed.

Lemma Qltb_ge (x y : Q) : Qltb x y = false <-> y <= x.
Proof.
  unfold Qltb. rewrite negb_false_iff. apply Qle_bool_iff.
Qed.

Lemma Qeq_bool_false (x y : Q) : ~ x == y -> Qeq_bool x y = false.
Proof.
  intro H. destruct (Qeq_bool x y) eqn:E; [|reflexivity].
  apply Qeq_bool_eq in E. contradiction.
Qed.

Lemma Qeq_bool_true (x y : Q) : x == y -> Qeq_bool x y = true.
Proof. apply Qeq_eq_bool. Qed.

Lemma Qcompare_eq_zero (a : Q) : (a ?= 0) = Eq <-> a == 0.
Proof. symmetry. apply Qeq_alt. Qed.

Lemma fsub_nan_l (y : fval) : fsub NaN y = NaN.
Proof. reflexivity. Qed.

Lemma fdiv_nan_r (x : fval) : fdiv x NaN = NaN.
Proof. destruct x; reflexivity. Qed.

Lemma fpow_nan (n : nat) : (0 < n)%nat -> fpow NaN n = NaN.
Proof. destruct n; [lia | reflexivity]. Qed.

(** A return is NaN exactly when both prices are zero. *)
Lemma ratio_isna (a b : Q) :
  isna (fsub (fdiv (Fin a) (Fin b)) (Fin 1)) = true <-> (b == 0 /\ a == 0).
Proof.
  unfold fdiv. destruct (Qeq_bool b 0) eqn:Eb.
  - apply Qeq_bool_eq in Eb.
    destruct (a ?= 0) eqn:Ea; simpl.
    + apply Qcompare_eq_zero in Ea. tauto.
    + split; [discriminate|]. intros [_ H]. apply Qcompare_eq_zero in H.
      congruence.
    + split; [discriminate|]. intros [_ H]. apply Qcompare_eq_zero in H.
      congruence.
  - simpl. split; [discriminate|]. intros [H _].
    apply Qeq_bool_true in H. congruence.
Qed.

Lemma ratio_finite (a b : Q) :
  ~ b == 0 -> fsub (fdiv (Fin a) (Fin b)) (Fin 1) = Fin (a / b - 1).
Proof.
  intro H. unfold fdiv. rewrite (Qeq_bool_false _ _ H). reflexivity.
Qed.

(** ** Returns *)

Lemma map2_shift (p : Q) (l : list Q) :
  map2 (fun cur prev => fsub (fdiv cur prev) (Fin 1))
       (map Fin l) (removelast (map Fin (p :: l)))
  = ratios p l.
Proof.
  revert p. induction l as [|x t IH]; intro p; [reflexivity|].
  cbn [map].
  change (removelast (Fin p :: Fin x :: map Fin t))
    with (Fin p :: removelast (map Fin (x :: t))).
  cbn [map2 ratios]. f_equal. apply IH.
Qed.

Lemma pct_change_cons (p : Q) (l : list Q) :
  pct_change (to_series (p :: l)) = NaN :: ratios p l.
Proof.
  unfold pct_change, to_series, shift1.
  change (map Fin (p :: l)) with (Fin p :: map Fin l) at 1 2.
  cbn [map2]. rewrite fdiv_nan_r, fsub_nan_l. f_equal.
  apply (map2_shift p l).
Qed.

Lemma ratios_length (p : Q) (l : list Q) : length (ratios p l) = length l.
Proof.
  revert p; induction l; intro p; simpl; [reflexivity|]. now rewrite IHl.
Qed.

Lemma ratios_nth (l : list Q) : forall (p : Q) (i : nat),
  (i < length l)%nat ->
  nth i (ratios p l) NaN
  = fsub (fdiv (Fin (nth i l 0)) (Fin (nth i (p :: l) 0))) (Fin 1).
Proof.
  induction l as [|x t IH]; intros p i Hi; [simpl in Hi; lia|].
  destruct i as [|i]; [reflexivity|].
  cbn [ratios nth]. simpl in Hi. rewrite IH by lia. reflexivity.
Qed.

Lemma dropna_all (s : series) :
  (forall x, In x s -> isna x = false) -> dropna s = s.
Proof.
  induction s as [|x t IH]; intro H; [reflexivity|].
  unfold dropna in *. cbn [filter]. unfold notna at 1.
  rewrite (H x (or_introl eq_refl)). cbn [negb]. f_equal.
  apply IH. intros y Hy. apply H. now right.
Qed.

Lemma ratios_notna (l : list Q) : forall p,
  no_zero_pair (p :: l) -> forall x, In x (ratios p l) -> isna x = false.
Proof.
  induction l as [|a t IH]; intros p H x Hx; [destruct Hx|].
  cbn [ratios] in Hx. destruct Hx as [<- | Hx].
  - destruct (isna _) eqn:E; [|reflexivity].
    apply ratio_isna in E. exfalso.
    apply (H 0%nat); [simpl; lia|]. simpl. tauto.
  - apply (IH a); [|exact Hx].
    intros i Hi. apply (H (S i)). simpl in *. lia.
Qed.

Lemma returns_cons (p : Q) (l : list Q) :
  no_zero_pair (p :: l) -> returns (p :: l) = ratios p l.
Proof.
  intro H. unfold returns. rewrite pct_change_cons.
  unfold dropna. cbn [filter notna isna negb].
  apply dropna_all. now apply ratios_notna.
Qed.

(** C1 (as amended).  For every series of finite prices with n >= 2 entries
    in which no two consecutive prices are both zero, the return series has
    exactly n - 1 entries and its entry for price index i (i = 1..n-1) is
    price[i]/price[i-1] - 1, computed with the float division and
    subtraction of the script. *)
Theorem returns_length_and_values (ps : list Q) :
  (2 <= length ps)%nat ->
  no_zero_pair ps ->
  length (returns ps) = (length ps - 1)%nat /\
  (forall i, (1 <= i < length ps)%nat ->
     nth (i - 1) (returns ps) NaN
     = fsub (fdiv (Fin (nth i ps 0)) (Fin (nth (i - 1) ps 0))) (Fin 1)).
Proof.
  intros Hn Hz. destruct ps as [|p l]; [simpl in Hn; lia|].
  rewrite (returns_cons p l Hz).
  assert (Hnth : forall i, (1 <= i < length (p :: l))%nat ->
            nth (i - 1) (ratios p l) NaN
            = fsub (fdiv (Fin (nth i (p :: l) 0))
                         (Fin (nth (i - 1) (p :: l) 0))) (Fin 1)).
  { intros i Hi. destruct i as [|i]; [lia|].
    replace (S i - 1)%nat with i by lia.
    simpl in Hi. rewrite ratios_nth by lia. reflexivity. }
  split.
  - rewrite ratios_length. simpl. lia.
  - exact Hnth.
Qed.

Lemma returns_length_and_values_witness :
  let ps := [100; 102; 101; 105; 103] in
  (2 <= length ps)%nat /\ no_zero_pair ps /\
  length (returns ps) = (length ps - 1)%nat.
Proof.
  intro ps.
  assert (Hn : (2 <= length ps)%nat) by (simpl; lia).
  assert (Hz : no_zero_pair ps).
  { intros i Hi [H _]. simpl in Hi.
    do 5 (destruct i as [|i]; [discriminate H|]). lia. }
  split; [exact Hn | split; [exact Hz|]].
  exact (proj1 (returns_length_and_values ps Hn Hz)).
Defined.

(** C1 fails as stated: the two-entry price series 0, 0 has a NaN return
    (0/0), which [dropna] removes, so no return is left. *)
Lemma returns_zero_prices_counterexample :
  (2 <= length [0; 0])%nat /\
  length (returns [0; 0]) <> (length [0; 0] - 1)%nat.
Proof. split; [simpl; lia | vm_compute; discriminate]. Qed.

(** ** Stress periods *)

Lemma select_from_In (s : series) : forall (mask : list bool) (k i : nat) v,
  length mask = length s ->
  (In (i, v) (select_from k s mask) <->
   (k <= i)%nat /\ nth_error s (i - k) = Some v
   /\ nth_error mask (i - k) = Some true).
Proof.
  induction s as [|x t IH]; intros mask k i v Hlen.
  - destruct mask; simpl.
    + split; [tauto|]. intros (_ & H & _). destruct (i - k)%nat; discriminate.
    + discriminate.
  - destruct mask as [|b mask']; [discriminate|].
    simpl in Hlen. injection Hlen as Hlen.
    assert (Hrec : In (i, v) (select_from (S k) t mask') <->
                   (k < i)%nat /\ nth_error t (i - S k) = Some v
                   /\ nth_error mask' (i - S k) = Some true).
    { rewrite (IH mask' (S k) i v Hlen). tauto. }
    assert (Hhere : (k <= i)%nat /\ nth_error (x :: t) (i - k) = Some v
                    /\ nth_error (b :: mask') (i - k) = Some true
                    <-> (i = k /\ x = v /\ b = true) \/
                        ((k < i)%nat /\ nth_error t (i - S k) = Some v
                         /\ nth_error mask' (i - S k) = Some true)).
    { destruct (Nat.eq_dec i k) as [->|Hne].
      - rewrite Nat.sub_diag. simpl. split.
        + intros (_ & H1 & H2). left. split; [reflexivity|]. split; congruence.
        + intros [(_ & -> & ->) | (H & _)]; [auto | lia].
      - split.
        + intros (Hk & H1 & H2). right.
          replace (i - k)%nat with (S (i - S k)) in H1, H2 by lia.
          simpl in H1, H2. split; [lia | tauto].
        + intros [(H & _) | (Hk & H1 & H2)]; [contradiction|].
          replace (i - k)%nat with (S (i - S k)) by lia.
          simpl. split; [lia | tauto]. }
    rewrite Hhere. cbn [select_from]. destruct b.
    + cbn [In]. rewrite Hrec. split.
      * intros [H | H]; [injection H as <- <-; left; auto | right; exact H].
      * intros [(-> & -> & _) | H]; [left; reflexivity | right; exact H].
    + rewrite Hrec. split; [tauto|].
      intros [(_ & _ & H) | H]; [discriminate | exact H].
Qed.

Lemma select_from_lower (s : series) : forall (mask : list bool) (k : nat) p,
  In p (select_from k s mask) -> (k <= fst p)%nat.
Proof.
  induction s as [|x t IH]; intros mask k p H; [destruct mask; destruct H|].
  destruct mask as [|b mask']; [destruct H|].
  cbn [select_from] in H. destruct b.
  - destruct H as [<- | H]; [simpl; lia|]. apply IH in H. lia.
  - apply IH in H. lia.
Qed.

Lemma select_from_increasing (s : series) : forall (mask : list bool) k,
  StronglySorted lt (map fst (select_from k s mask)).
Proof.
  induction s as [|x t IH]; intros mask k; [destruct mask; constructor|].
  destruct mask as [|b mask']; [constructor|].
  cbn [select_from]. destruct b; [|apply IH].
  cbn [map fst]. constructor; [apply IH|].
  apply Forall_forall. intros j Hj. apply in_map_iff in Hj.
  destruct Hj as (p & <- & Hp). apply select_from_lower in Hp. lia.
Qed.

Lemma select_from_none (s : series) : forall (mask : list bool) k,
  (forall b, In b mask -> b = false) -> select_from k s mask = [].
Proof.
  induction s as [|x t IH]; intros mask k H; [destruct mask; reflexivity|].
  destruct mask as [|b mask']; [reflexivity|].
  cbn [select_from]. rewrite (H b (or_introl eq_refl)).
  apply IH. intros b' Hb'. apply H. now right.
Qed.

(** C9.  For every drawdown curve, the stress periods are exactly the
    (index, value) pairs of the curve whose value is strictly below -0.30,
    listed by increasing index; a curve that is zero everywhere gives the
    empty result (the selection is a total function: nothing is raised). *)
Theorem stress_periods_exact (dd : series) :
  (forall i v, In (i, v) (stress_periods dd) <->
     nth_error dd i = Some v /\ flt v (Fin (- (3 # 10))) = true) /\
  StronglySorted lt (map fst (stress_periods dd)) /\
  ((forall v, In v dd -> feq v (Fin 0)) -> stress_periods dd = []).
Proof.
  unfold stress_periods. split; [|split].
  - intros i v. rewrite select_from_In by apply length_map.
    rewrite Nat.sub_0_r. rewrite nth_error_map. split.
    + intros (_ & H1 & H2). rewrite H1 in H2. cbn [option_map] in H2.
      split; [exact H1 | now injection H2].
    + intros (H1 & H2). split; [lia|]. split; [exact H1|].
      rewrite H1. cbn [option_map]. now f_equal.
  - apply select_from_increasing.
  - intro H. apply select_from_none. intros b Hb.
    apply in_map_iff in Hb. destruct Hb as (v & <- & Hv).
    specialize (H v Hv). destruct v as [q| | |]; simpl in H; try contradiction.
    unfold flt. apply Qltb_ge. rewrite H. unfold stress_threshold. lra.
Qed.

(** ** Drawdown *)

Lemma map2_length {A B C : Type} (f : A -> B -> C) (l : list A) :
  forall m, length (map2 f l m) = Nat.min (length l) (length m).
Proof.
  induction l as [|a l IH]; intros [|b m]; simpl; try reflexivity.
  now rewrite IH.
Qed.

Lemma map2_nth {A B C : Type} (f : A -> B -> C) (da : A) (db : B) (dc : C)
  (l : list A) : forall (m : list B) (i : nat),
  (i < length l)%nat -> (i < length m)%nat ->
  nth i (map2 f l m) dc = f (nth i l da) (nth i m db).
Proof.
  induction l as [|a l IH]; intros [|b m] i Hl Hm; simpl in *; try lia.
  destruct i; [reflexivity|]. apply IH; lia.
Qed.

Lemma cummax_from_finite (l : list Q) : forall m,
  cummax_from (Some (Fin m)) (map Fin l) = map Fin (qcummax_from m l).
Proof.
  induction l as [|x t IH]; intro m; [reflexivity|].
  cbn [map cummax_from qcummax_from isna flt].
  destruct (Qltb m x); cbn [map]; f_equal; apply IH.
Qed.

Lemma cummax_to_series (ps : list Q) :
  cummax (to_series ps) = map Fin (qcummax ps).
Proof.
  destruct ps as [|p l]; [reflexivity|].
  unfold cummax, to_series. cbn [map cummax_from qcummax isna].
  f_equal. apply cummax_from_finite.
Qed.

Lemma qcummax_from_length (l : list Q) : forall m,
  length (qcummax_from m l) = length l.
Proof. induction l; intro m; simpl; [reflexivity|]. now rewrite IHl. Qed.

Lemma qcummax_length (ps : list Q) : length (qcummax ps) = length ps.
Proof. destruct ps; simpl; [reflexivity|]. now rewrite qcummax_from_length. Qed.

Lemma qcummax_from_greatest (l : list Q) : forall m i,
  (i < length l)%nat ->
  greatest (nth i (qcummax_from m l) 0) (m :: firstn (S i) l).
Proof.
  induction l as [|x t IH]; intros m i Hi; [simpl in Hi; lia|].
  cbn [qcummax_from]. set (m' := if Qltb m x then x else m).
  assert (Hm' : (m' = x \/ m' = m) /\ m <= m' /\ x <= m').
  { unfold m'. destruct (Qltb m x) eqn:E.
    - apply Qltb_lt in E. split; [now left|]. split; lra.
    - apply Qltb_ge in E. split; [now right|]. split; lra. }
  destruct Hm' as (Hin & Hm & Hx).
  destruct i as [|j].
  - cbn [nth firstn]. split.
    + destruct Hin as [-> | ->]; simpl; auto.
    + intros y [<- | [<- | []]]; assumption.
  - simpl in Hi. destruct (IH m' j ltac:(lia)) as (HI & HB).
    cbn [nth]. change (firstn (S (S j)) (x :: t)) with (x :: firstn (S j) t).
    split.
    + destruct HI as [HI | HI].
      * rewrite <- HI. destruct Hin as [-> | ->]; simpl; auto.
      * right. right. exact HI.
    + intros y Hy.
      assert (Hm'M : m' <= nth j (qcummax_from m' t) 0)
        by (apply HB; now left).
      destruct Hy as [<- | [<- | Hy]]; [lra | lra |].
      apply HB. now right.
Qed.

Lemma qcummax_greatest (ps : list Q) (i : nat) :
  (i < length ps)%nat -> greatest (nth i (qcummax ps) 0) (firstn (S i) ps).
Proof.
  destruct ps as [|p l]; [simpl; lia|]. intro Hi.
  destruct i as [|j].
  - simpl. split; [now left|]. intros x [<- | []]. lra.
  - simpl in Hi.
    change (firstn (S (S j)) (p :: l)) with (p :: firstn (S j) l).
    cbn [qcummax nth]. apply qcummax_from_greatest. lia.
Qed.

Lemma firstn_In {A : Type} (n : nat) (l : list A) (x : A) :
  In x (firstn n l) -> In x l.
Proof.
  intro H. rewrite <- (firstn_skipn n l). apply in_or_app. now left.
Qed.

Lemma drawdown_length (ps : list Q) : length (drawdown ps) = length ps.
Proof.
  unfold drawdown. rewrite map2_length, cummax_to_series.
  unfold to_series. rewrite !length_map, qcummax_length. lia.
Qed.

Lemma drawdown_nth (ps : list Q) (i : nat) :
  (i < length ps)%nat ->
  nth i (drawdown ps) NaN
  = fsub (fdiv (Fin (nth i ps 0)) (Fin (nth i (qcummax ps) 0))) (Fin 1).
Proof.
  intro Hi. unfold drawdown. rewrite cummax_to_series. unfold to_series.
  rewrite (map2_nth _ (Fin 0) (Fin 0))
    by (rewrite !length_map, ?qcummax_length; lia).
  now rewrite !(map_nth Fin).
Qed.

Lemma fle_finite (a b : Q) : fle (Fin a) (Fin b) = true <-> a <= b.
Proof. apply Qle_bool_iff. Qed.

Lemma fold_min_least (t : series) : forall q,
  all_finite t ->
  let r := fold_left (fun m y => if flt y m then y else m) t (Fin q) in
  In r (Fin q :: t) /\ forall y, In y (Fin q :: t) -> fle r y = true.
Proof.
  induction t as [|y t IH]; intros q Hfin.
  - simpl. split; [now left|]. intros z [<- | []].
    apply fle_finite. lra.
  - destruct (Hfin y (or_introl eq_refl)) as (b & ->).
    cbn [fold_left flt].
    assert (Hstep : exists c, (if Qltb b q then Fin b else Fin q) = Fin c
                              /\ (c = b \/ c = q) /\ c <= q /\ c <= b).
    { destruct (Qltb b q) eqn:E.
      - apply Qltb_lt in E. exists b. repeat split; auto; lra.
      - apply Qltb_ge in E. exists q. repeat split; auto; lra. }
    destruct Hstep as (c & -> & Hc & Hcq & Hcb).
    destruct (IH c) as (Hin & Hle).
    { intros z Hz. apply Hfin. now right. }
    split.
    + destruct Hin as [Hin | Hin].
      * rewrite <- Hin. destruct Hc as [-> | ->]; simpl; auto.
      * right. right. exact Hin.
    + intros z Hz.
      assert (Hrc := Hle (Fin c) (or_introl eq_refl)).
      destruct Hin as [Hr | Hr].
      * rewrite <- Hr in *.
        destruct Hz as [<- | [<- | Hz]];
          [apply fle_finite; lra | apply fle_finite; lra |].
        apply Hle. now right.
      * destruct (Hfin _ (or_intror Hr)) as (r & Er).
        rewrite Er in *. apply fle_finite in Hrc.
        destruct Hz as [<- | [<- | Hz]];
          [apply fle_finite; lra | apply fle_finite; lra |].
        apply Hle. now right.
Qed.

Lemma all_finite_notna (s : series) : all_finite s -> dropna s = s.
Proof.
  intro H. apply dropna_all. intros x Hx.
  destruct (H x Hx) as (q & ->). reflexivity.
Qed.

Lemma series_min_least (s : series) :
  all_finite s ->
  (forall v, In v s -> fle (series_min s) v = true) /\
  (s <> [] -> In (series_min s) s).
Proof.
  intro Hfin. unfold series_min. rewrite (all_finite_notna s Hfin).
  destruct s as [|x t]; [split; [intros v [] | congruence]|].
  destruct (Hfin x (or_introl eq_refl)) as (q & ->).
  destruct (fold_min_least t q) as (Hin & Hle).
  { intros z Hz. apply Hfin. now right. }
  split; [exact Hle | intros _; exact Hin].
Qed.

Lemma div_le_one (p M : Q) : 0 < M -> p <= M -> p / M - 1 <= 0.
Proof.
  intros HM Hp.
  assert (p / M <= 1) by (apply Qle_shift_div_r; [exact HM | lra]).
  lra.
Qed.

Lemma div_self_minus_one (p M : Q) : 0 < M -> p == M -> p / M - 1 == 0.
Proof.
  intros HM ->. field. intro H. rewrite H in HM. lra.
Qed.

(** C2.  For every price series whose prices are all strictly positive, the
    drawdown curve has one value per price; its value at index i is
    price[i]/M - 1 where M is the greatest of price[0..i]; every value is
    <= 0; where the price equals the running maximum the value is 0; and
    maxDrawdown is the minimum of the curve (below every value of it, and
    one of them when the curve is not empty). *)
Theorem drawdown_curve_spec (sqrtQ : Q -> Q) (ps : list Q) :
  (forall p, In p ps -> 0 < p) ->
  length (drawdown ps) = length ps /\
  (forall i, (i < length ps)%nat ->
     exists M, greatest M (firstn (S i) ps) /\
       nth i (drawdown ps) NaN = Fin (nth i ps 0 / M - 1) /\
       nth i ps 0 / M - 1 <= 0 /\
       (nth i ps 0 == M -> nth i ps 0 / M - 1 == 0)) /\
  (forall v, In v (drawdown ps) ->
     fle (max_drawdown (risk_metrics sqrtQ ps)) v = true) /\
  (ps <> [] -> In (max_drawdown (risk_metrics sqrtQ ps)) (drawdown ps)).
Proof.
  intro Hpos.
  assert (Hcell : forall i, (i < length ps)%nat ->
            exists M, greatest M (firstn (S i) ps) /\ 0 < M /\
              nth i (drawdown ps) NaN = Fin (nth i ps 0 / M - 1)).
  { intros i Hi. exists (nth i (qcummax ps) 0).
    pose proof (qcummax_greatest ps i Hi) as HG.
    assert (HM : 0 < nth i (qcummax ps) 0)
      by (apply Hpos; eapply firstn_In; apply HG).
    split; [exact HG | split; [exact HM|]].
    rewrite drawdown_nth by exact Hi. apply ratio_finite. lra. }
  assert (Hfin : all_finite (drawdown ps)).
  { intros x Hx. apply (In_nth _ _ NaN) in Hx.
    destruct Hx as (i & Hi & <-). rewrite drawdown_length in Hi.
    destruct (Hcell i Hi) as (M & _ & _ & ->). eauto. }
  split; [apply drawdown_length | split; [|split]].
  - intros i Hi. destruct (Hcell i Hi) as (M & HG & HM & Heq).
    exists M. split; [exact HG | split; [exact Heq|]].
    assert (Hle : nth i ps 0 <= M).
    { apply HG. rewrite <- (firstn_skipn (S i) ps) at 1.
      rewrite app_nth1 by (rewrite length_firstn; lia).
      apply nth_In. rewrite length_firstn. lia. }
    split; [now apply div_le_one | now apply div_self_minus_one].
  - cbn [risk_metrics max_drawdown]. apply (series_min_least _ Hfin).
  - intro Hne. cbn [risk_metrics max_drawdown].
    apply (series_min_least _ Hfin).
    intro E. apply Hne. apply length_zero_iff_nil.
    rewrite <- drawdown_length, E. reflexivity.
Qed.

Lemma drawdown_curve_spec_witness :
  let ps := [100; 102; 101; 105; 103] in
  (forall p, In p ps -> 0 < p) /\
  length (drawdown ps) = length ps.
Proof.
  intro ps.
  assert (Hpos : forall p, In p ps -> 0 < p).
  { intros p Hp. simpl in Hp.
    repeat (destruct Hp as [<- | Hp]; [reflexivity|]). destruct Hp. }
  split; [exact Hpos|].
  exact (proj1 (drawdown_curve_spec sqrt_approx ps Hpos)).
Defined.

(** ** Monte Carlo on finite numbers: shape of the paths *)

Lemma qcumprod_from_length (l : list Q) : forall acc,
  length (qcumprod_from acc l) = length l.
Proof. induction l; intro acc; simpl; [reflexivity|]. now rewrite IHl. Qed.

Lemma qcumprod_length (l : list Q) : length (qcumprod l) = length l.
Proof. destruct l; simpl; [reflexivity|]. now rewrite qcumprod_from_length. Qed.

Lemma qpath_length (lp mu sigma : Q) (days : nat) (g : rng) :
  length (qpath lp mu sigma days g) = days.
Proof.
  unfold qpath, qnormal.
  now rewrite length_map, qcumprod_length, !length_map, length_seq.
Qed.

Lemma qpaths_count (lp mu sigma : Q) (days n : nat) : forall g,
  length (qpaths lp mu sigma days n g) = n.
Proof.
  induction n as [|k IH]; intro g; [reflexivity|].
  cbn [qpaths length]. now rewrite IH.
Qed.

Lemma qpaths_shape (lp mu sigma : Q) (days n : nat) : forall g path,
  In path (qpaths lp mu sigma days n g) -> length path = days.
Proof.
  induction n as [|k IH]; intros g path H; [destruct H|].
  cbn [qpaths] in H. destruct H as [<- | H]; [apply qpath_length|].
  now apply (IH _ _ H).
Qed.

(** ** Zero mean and zero volatility, on finite numbers *)

Lemma qcumprod_from_ones (l : list Q) : forall acc,
  acc == 1 -> all_eq 1 l -> all_eq 1 (qcumprod_from acc l).
Proof.
  induction l as [|x t IH]; intros acc Ha Hl; [constructor|].
  inversion Hl as [|? ? Hx Ht]; subst. cbn [qcumprod_from].
  assert (E : acc * x == 1) by (rewrite Ha, Hx; ring).
  constructor; [exact E | now apply IH].
Qed.

Lemma qcumprod_ones (l : list Q) : all_eq 1 l -> all_eq 1 (qcumprod l).
Proof.
  intro H. destruct l as [|x t]; [constructor|].
  inversion H as [|? ? Hx Ht]; subst. cbn [qcumprod].
  constructor; [exact Hx | now apply qcumprod_from_ones].
Qed.

Lemma zero_draws_ones (days : nat) (g : rng) :
  all_eq 1 (map (Qplus 1) (qnormal 0 0 days g)).
Proof.
  unfold qnormal, all_eq. rewrite map_map.
  apply Forall_forall. intros x Hx. apply in_map_iff in Hx.
  destruct Hx as (i & <- & _). ring.
Qed.

Lemma zero_path_flat (lp : Q) (days : nat) (g : rng) :
  all_eq lp (qpath lp 0 0 days g).
Proof.
  pose proof (qcumprod_ones _ (zero_draws_ones days g)) as H.
  unfold qpath, all_eq in *. rewrite Forall_forall in *.
  intros x Hx. apply in_map_iff in Hx. destruct Hx as (y & <- & Hy).
  rewrite (H y Hy). ring.
Qed.

Lemma zero_paths_flat (lp : Q) (days n : nat) : forall g path,
  In path (qpaths lp 0 0 days n g) -> all_eq lp path.
Proof.
  induction n as [|k IH]; intros g path H; [destruct H|].
  cbn [qpaths] in H.
  destruct H as [<- | H]; [apply zero_path_flat | now apply (IH _ _ H)].
Qed.

Lemma all_eq_nth (c : Q) (l : list Q) (i : nat) :
  all_eq c l -> (i < length l)%nat -> nth i l 0 == c.
Proof.
  intros H Hi. unfold all_eq in H. rewrite Forall_forall in H.
  apply H. now apply nth_In.
Qed.

Lemma qinsert_length (x : Q) (l : list Q) :
  length (qinsert x l) = S (length l).
Proof.
  induction l as [|y t IH]; [reflexivity|].
  cbn [qinsert]. destruct (Qle_bool x y); simpl; [reflexivity|].
  now rewrite IH.
Qed.

Lemma qsort_length (l : list Q) : length (qsort l) = length l.
Proof.
  induction l as [|x t IH]; [reflexivity|].
  unfold qsort in *. cbn [fold_right]. now rewrite qinsert_length, IH.
Qed.

Lemma qinsert_In (x : Q) (l : list Q) (y : Q) :
  In y (qinsert x l) -> y = x \/ In y l.
Proof.
  induction l as [|z t IH]; cbn [qinsert].
  - intros [<- | []]. now left.
  - destruct (Qle_bool x z).
    + intros [<- | H]; [now left | now right].
    + intros [<- | H]; [right; now left|].
      destruct (IH H) as [-> | H']; [now left | right; now right].
Qed.

Lemma qsort_In (l : list Q) (y : Q) : In y (qsort l) -> In y l.
Proof.
  induction l as [|x t IH]; [intros []|].
  unfold qsort in *. cbn [fold_right]. intro H.
  destruct (qinsert_In _ _ _ H) as [-> | H']; [now left | right; auto].
Qed.

Lemma qsort_all_eq (c : Q) (l : list Q) : all_eq c l -> all_eq c (qsort l).
Proof.
  unfold all_eq. rewrite !Forall_forall. intros H y Hy.
  apply H. now apply qsort_In.
Qed.

Lemma lerp_eq (a b t : Q) : lerp a b t == a + (b - a) * t.
Proof. unfold lerp. destruct (Qle_bool (1 # 2) t); ring. Qed.

(** ** Percentile: the two neighbours are cells of the column *)

Lemma Qnat_le (a b : nat) : Qnat a <= Qnat b <-> (a <= b)%nat.
Proof. unfold Qnat. rewrite <- Zle_Qle. lia. Qed.

Lemma Qnat_lt (a b : nat) : Qnat a < Qnat b <-> (a < b)%nat.
Proof. unfold Qnat. rewrite <- Zlt_Qlt. lia. Qed.

Lemma Qnat_S (a : nat) : Qnat (S a) == Qnat a + 1.
Proof.
  unfold Qnat. rewrite Nat2Z.inj_succ, <- Z.add_1_r, inject_Z_plus.
  reflexivity.
Qed.

Lemma floor_nat_spec (v : Q) :
  0 <= v ->
  Qnat (Z.to_nat (Qfloor v)) <= v /\ v < Qnat (Z.to_nat (Qfloor v)) + 1.
Proof.
  intro Hv.
  assert (H0 : (0 <= Qfloor v)%Z).
  { change 0%Z with (Qfloor 0). now apply Qfloor_resp_le. }
  unfold Qnat. rewrite Z2Nat.id by exact H0. split.
  - apply Qfloor_le.
  - pose proof (Qlt_floor v) as H. rewrite inject_Z_plus in H. exact H.
Qed.

Lemma floor_nat_mono (v w : Q) :
  v <= w -> (Z.to_nat (Qfloor v) <= Z.to_nat (Qfloor w))%nat.
Proof.
  intro H. apply Qfloor_resp_le in H. lia.
Qed.

Lemma Qnat_nonneg (a : nat) : 0 <= Qnat a.
Proof. change 0 with (Qnat 0). apply Qnat_le. lia. Qed.

Lemma virtual_index_nonneg (m : nat) (q : Q) :
  0 <= q -> 0 <= Qnat m * (q / 100).
Proof.
  intro Hq. apply Qmult_le_0_compat; [apply Qnat_nonneg|].
  apply Qle_shift_div_l; lra.
Qed.

Lemma virtual_index_mono (m : nat) (q1 q2 : Q) :
  q1 <= q2 -> Qnat m * (q1 / 100) <= Qnat m * (q2 / 100).
Proof.
  intro H. rewrite !(Qmult_comm (Qnat m)).
  apply Qmult_le_compat_r; [|apply Qnat_nonneg].
  unfold Qdiv. apply Qmult_le_compat_r; [exact H|].
  apply Qinv_le_0_compat. lra.
Qed.

(** The shape of a percentile: either the virtual index is at or above the
    last index and the last sorted cell is taken, or it falls between two
    consecutive sorted cells [f] and [f + 1]. *)
Lemma qpercentile_cases (a : list Q) (q : Q) :
  a <> [] -> 0 <= q ->
  let n := length a in
  let s := qsort a in
  let v := Qnat (n - 1) * (q / 100) in
  (Qnat (n - 1) <= v /\
   exists t, qpercentile a q
             = Fin (lerp (nth (n - 1) s 0) (nth (n - 1) s 0) t))
  \/
  (v < Qnat (n - 1) /\
   exists f, f = Z.to_nat (Qfloor v) /\ (S f <= n - 1)%nat /\
             Qnat f <= v /\ v < Qnat f + 1 /\
             qpercentile a q
             = Fin (lerp (nth f s 0) (nth (S f) s 0) (v - Qnat f))).
Proof.
  intros Hne Hq n s v.
  assert (Hn : (n =? 0)%nat = false).
  { apply Nat.eqb_neq. unfold n. destruct a; [congruence | simpl; lia]. }
  unfold qpercentile. fold n. rewrite Hn. fold s. fold v.
  destruct (Qle_bool (Qnat (n - 1)) v) eqn:E.
  - left. apply Qle_bool_iff in E. split; [exact E | eauto].
  - right.
    assert (Hlt : v < Qnat (n - 1)).
    { apply Qnot_le_lt. intro H. apply Qle_bool_iff in H. congruence. }
    split; [exact Hlt|].
    exists (Z.to_nat (Qfloor v)).
    destruct (floor_nat_spec v (virtual_index_nonneg _ _ Hq)) as (Hlo & Hhi).
    repeat split; try assumption.
    assert (Qnat (Z.to_nat (Qfloor v)) < Qnat (n - 1)) by lra.
    apply Qnat_lt in H. lia.
Qed.

Lemma lerp_same (x t : Q) : lerp x x t == x.
Proof. rewrite lerp_eq. ring. Qed.

Lemma lerp_between (a b t : Q) :
  a <= b -> 0 <= t -> t <= 1 -> a <= lerp a b t /\ lerp a b t <= b.
Proof.
  intros Hab H0 H1. rewrite lerp_eq.
  assert (0 <= (b - a) * t) by (apply Qmult_le_0_compat; lra).
  assert ((b - a) * t <= (b - a) * 1).
  { rewrite !(Qmult_comm (b - a)). apply Qmult_le_compat_r; lra. }
  split; lra.
Qed.

Lemma lerp_mono (a b t u : Q) :
  a <= b -> t <= u -> lerp a b t <= lerp a b u.
Proof.
  intros Hab Htu. rewrite !lerp_eq.
  assert ((b - a) * t <= (b - a) * u).
  { rewrite !(Qmult_comm (b - a)). apply Qmult_le_compat_r; lra. }
  lra.
Qed.

(** ** Percentile: order *)

Lemma qinsert_sorted (x : Q) (l : list Q) :
  StronglySorted Qle l -> StronglySorted Qle (qinsert x l).
Proof.
  induction l as [|y t IH]; intro H; cbn [qinsert].
  - repeat constructor.
  - inversion H as [|? ? Ht Hy]; subst.
    destruct (Qle_bool x y) eqn:E.
    + apply Qle_bool_iff in E. constructor; [exact H|].
      constructor; [exact E|].
      rewrite Forall_forall in *. intros z Hz. specialize (Hy z Hz). lra.
    + assert (Hyx : y <= x).
      { apply Qlt_le_weak, Qnot_le_lt. intro C.
        apply Qle_bool_iff in C. congruence. }
      constructor; [now apply IH|].
      rewrite Forall_forall in *. intros z Hz.
      destruct (qinsert_In _ _ _ Hz) as [-> | Hz']; [exact Hyx | auto].
Qed.

Lemma qsort_sorted (l : list Q) : StronglySorted Qle (qsort l).
Proof.
  induction l as [|x t IH]; [constructor|].
  unfold qsort in *. cbn [fold_right]. now apply qinsert_sorted.
Qed.

Lemma sorted_nth (s : list Q) : forall i j,
  StronglySorted Qle s -> (i <= j)%nat -> (j < length s)%nat ->
  nth i s 0 <= nth j s 0.
Proof.
  induction s as [|x t IH]; intros i j Hs Hij Hj; [simpl in Hj; lia|].
  inversion Hs as [|? ? Ht Hx]; subst.
  destruct j as [|j].
  - replace i with 0%nat by lia. simpl. lra.
  - simpl in Hj. destruct i as [|i].
    + cbn [nth]. rewrite Forall_forall in Hx. apply Hx.
      apply nth_In. lia.
    + cbn [nth]. apply IH; [exact Ht | lia | lia].
Qed.

Lemma qpercentile_mono (a : list Q) (q1 q2 : Q) :
  a <> [] -> 0 <= q1 -> q1 <= q2 ->
  fle (qpercentile a q1) (qpercentile a q2) = true.
Proof.
  intros Hne H1 H12.
  assert (H2 : 0 <= q2) by lra.
  pose proof (virtual_index_mono (length a - 1) q1 q2 H12) as Hv.
  pose proof (qsort_sorted a) as Hs.
  assert (Hlen : length (qsort a) = length a) by apply qsort_length.
  assert (Hpos : (0 < length a)%nat)
    by (destruct a; [congruence | simpl; lia]).
  assert (Hstep : forall f, (S f <= length a - 1)%nat ->
            nth f (qsort a) 0 <= nth (S f) (qsort a) 0).
  { intros f Hf. apply sorted_nth; [exact Hs | lia | lia]. }
  destruct (qpercentile_cases a q1 Hne H1) as [(A1 & t1 & E1) |
    (B1 & f1 & Ef1 & Hf1 & Hlo1 & Hhi1 & E1)];
  destruct (qpercentile_cases a q2 Hne H2) as [(A2 & t2 & E2) |
    (B2 & f2 & Ef2 & Hf2 & Hlo2 & Hhi2 & E2)];
  rewrite E1, E2; apply fle_finite.
  - rewrite !lerp_same. lra.
  - lra.
  - rewrite lerp_same.
    destruct (lerp_between _ _ (Qnat (length a - 1) * (q1 / 100) - Qnat f1)
                (Hstep f1 Hf1)) as (_ & Hup); [lra | lra |].
    assert (nth (S f1) (qsort a) 0 <= nth (length a - 1) (qsort a) 0)
      by (apply sorted_nth; [exact Hs | lia | lia]).
    lra.
  - assert (Hff : (f1 <= f2)%nat)
      by (subst f1 f2; now apply floor_nat_mono).
    destruct (Nat.eq_dec f1 f2) as [<- | Hneq].
    + apply lerp_mono; [now apply Hstep | lra].
    + destruct (lerp_between _ _ (Qnat (length a - 1) * (q1 / 100) - Qnat f1)
                  (Hstep f1 Hf1)) as (_ & Hup); [lra | lra |].
      destruct (lerp_between _ _ (Qnat (length a - 1) * (q2 / 100) - Qnat f2)
                  (Hstep f2 Hf2)) as (Hdown & _); [lra | lra |].
      assert (nth (S f1) (qsort a) 0 <= nth f2 (qsort a) 0)
        by (apply sorted_nth; [exact Hs | lia | lia]).
      lra.
Qed.


Lemma qpercentile_flat (a : list Q) (c q : Q) :
  a <> [] -> all_eq c a -> 0 <= q -> feq (qpercentile a q) (Fin c).
Proof.
  intros Hne Hall Hq.
  assert (Hs : all_eq c (qsort a)) by now apply qsort_all_eq.
  assert (Hpos : (0 < length a)%nat)
    by (destruct a; [congruence | simpl; lia]).
  assert (Hnth : forall i, (i <= length a - 1)%nat -> nth i (qsort a) 0 == c).
  { intros i Hi. apply all_eq_nth; [exact Hs|]. rewrite qsort_length. lia. }
  destruct (qpercentile_cases a q Hne Hq) as [(_ & t & E) |
    (_ & f & _ & Hf & _ & _ & E)]; rewrite E; cbn [feq]; rewrite lerp_eq.
  - rewrite (Hnth (length a - 1)%nat) by lia. ring.
  - rewrite (Hnth f), (Hnth (S f)) by lia. ring.
Qed.

(** ** Finite cells: the float computation is the rational one *)

Lemma all_finite_map (s : series) :
  all_finite s -> exists l, s = map Fin l.
Proof.
  induction s as [|x t IH]; intro H; [now exists []|].
  destruct (H x (or_introl eq_refl)) as (q & ->).
  destruct IH as (l & ->); [intros y Hy; apply H; now right|].
  now exists (q :: l).
Qed.

Lemma nth_map_Fin (l : list Q) (i : nat) :
  (i < length l)%nat -> nth i (map Fin l) NaN = Fin (nth i l 0).
Proof.
  intro H. rewrite (nth_indep _ NaN (Fin 0)) by (now rewrite length_map).
  apply (map_nth Fin).
Qed.

Lemma finsert_finite (x : Q) (l : list Q) :
  finsert (Fin x) (map Fin l) = map Fin (qinsert x l).
Proof.
  induction l as [|y t IH]; [reflexivity|].
  cbn [map finsert qinsert fle]. destruct (Qle_bool x y); [reflexivity|].
  cbn [map]. now rewrite IH.
Qed.

Lemma fsort_finite (l : list Q) : fsort (map Fin l) = map Fin (qsort l).
Proof.
  induction l as [|x t IH]; [reflexivity|].
  unfold fsort, qsort in *. cbn [map fold_right].
  now rewrite IH, finsert_finite.
Qed.

Lemma no_nan_finite (l : list Q) : existsb isna (map Fin l) = false.
Proof. induction l as [|x t IH]; [reflexivity | exact IH]. Qed.

Lemma flerp_finite (a b t : Q) : flerp (Fin a) (Fin b) t = Fin (lerp a b t).
Proof. unfold flerp, lerp. destruct (Qle_bool (1 # 2) t); reflexivity. Qed.

(** Both neighbours of the virtual index are cells of the column. *)
Lemma percentile_indices (n : nat) (q : Q) :
  (0 < n)%nat -> 0 <= q ->
  let virt := Qnat (n - 1) * (q / 100) in
  let prev := Z.to_nat (Qfloor virt) in
  let above := Qle_bool (Qnat (n - 1)) virt in
  ((if above then (n - 1)%nat else prev) < n)%nat /\
  ((if above then (n - 1)%nat else S prev) < n)%nat.
Proof.
  intros Hn Hq virt prev above.
  destruct above eqn:E; [lia|].
  assert (Hlt : virt < Qnat (n - 1)).
  { apply Qnot_le_lt. intro H. apply Qle_bool_iff in H.
    unfold above in E. congruence. }
  destruct (floor_nat_spec virt (virtual_index_nonneg _ _ Hq)) as (Hlo & _).
  fold prev in Hlo.
  assert (H : Qnat prev < Qnat (n - 1)) by lra.
  apply Qnat_lt in H. lia.
Qed.

Lemma percentile_finite (l : list Q) (q : Q) :
  l <> [] -> 0 <= q -> percentile (map Fin l) q = qpercentile l q.
Proof.
  intros Hne Hq.
  assert (Hpos : (0 < length l)%nat)
    by (destruct l; [congruence | simpl; lia]).
  assert (Hn : (length l =? 0)%nat = false) by (apply Nat.eqb_neq; lia).
  destruct (percentile_indices (length l) q Hpos Hq) as (Hlo & Hhi).
  unfold percentile, qpercentile.
  rewrite length_map, Hn, no_nan_finite, fsort_finite.
  cbv zeta in Hlo, Hhi |- *.
  rewrite !nth_map_Fin by (rewrite qsort_length; assumption).
  apply flerp_finite.
Qed.

Lemma cumprod_from_finite (l : list Q) : forall acc,
  cumprod_from (Fin acc) (map Fin l) = map Fin (qcumprod_from acc l).
Proof.
  induction l as [|x t IH]; intro acc; [reflexivity|].
  cbn [map cumprod_from qcumprod_from fmul]. now rewrite IH.
Qed.

Lemma cumprod_finite (l : list Q) : cumprod (map Fin l) = map Fin (qcumprod l).
Proof.
  destruct l as [|x t]; [reflexivity|].
  cbn [map cumprod qcumprod]. now rewrite cumprod_from_finite.
Qed.

(** ** Monte Carlo: one step of the loop *)

Lemma simulate_paths_step (lp : Q) (mu sigma : fval) (days k : nat) (g : rng) :
  simulate_paths lp mu sigma days (S k) g
  = if flt sigma (Fin 0) then inl (ValueError "scale < 0")
    else match simulate_paths lp mu sigma days k (advance days g) with
         | inl e => inl e
         | inr more =>
             inr (path_of lp (draws mu sigma days g) :: fst more, snd more)
         end.
Proof.
  cbn [simulate_paths]. unfold normal, bind.
  destruct (flt sigma (Fin 0)); reflexivity.
Qed.

Lemma simulate_unfold (lp : Q) (mu sigma : fval) (days n : nat) (g : rng) :
  simulate lp mu sigma days n g
  = match simulate_paths lp mu sigma days n g with
    | inl e => inl e
    | inr sim => inr (reduce_paths days (fst sim), snd sim)
    end.
Proof. reflexivity. Qed.

Lemma path_finite (lp mu sigma : Q) (days : nat) (g : rng) :
  path_of lp (draws (Fin mu) (Fin sigma) days g)
  = map Fin (qpath lp mu sigma days g).
Proof.
  unfold path_of, qpath.
  assert (E : map (fadd (Fin 1)) (draws (Fin mu) (Fin sigma) days g)
              = map Fin (map (Qplus 1) (qnormal mu sigma days g))).
  { unfold draws, qnormal. rewrite !map_map. reflexivity. }
  rewrite E, cumprod_finite, !map_map. reflexivity.
Qed.

(** With finite estimates and a non-negative volatility nothing is raised
    and every path is finite. *)
Lemma simulate_paths_finite (lp mu sigma : Q) (days n : nat) :
  0 <= sigma -> forall g, exists g',
  simulate_paths lp (Fin mu) (Fin sigma) days n g
  = inr (map (map Fin) (qpaths lp mu sigma days n g), g').
Proof.
  intro Hs. induction n as [|k IH]; intro g; [now exists g|].
  rewrite simulate_paths_step.
  assert (E : flt (Fin sigma) (Fin 0) = false) by (now apply Qltb_ge).
  rewrite E. destruct (IH (advance days g)) as (g' & ->).
  exists g'. cbn [fst snd qpaths map]. now rewrite path_finite.
Qed.

Lemma column_finite (t : nat) (P : list (list Q)) :
  (forall path, In path P -> (t < length path)%nat) ->
  column t (map (map Fin) P) = map Fin (map (fun path => nth t path 0) P).
Proof.
  intro H. unfold column. rewrite !map_map. apply map_ext_in.
  intros path Hp. apply nth_map_Fin. now apply H.
Qed.

(** ** Monte Carlo: the percentile bands *)

Lemma axis0_nth (days : nat) (all_paths : list series) (q : Q) (t : nat) :
  (t < days)%nat ->
  nth t (percentile_axis0 days all_paths q) NaN
  = percentile (column t all_paths) q.
Proof.
  intro Ht. unfold percentile_axis0.
  rewrite (nth_indep _ NaN (percentile (column 0 all_paths) q))
    by (rewrite length_map, length_seq; exact Ht).
  rewrite (map_nth (fun t => percentile (column t all_paths) q)).
  now rewrite seq_nth.
Qed.

Lemma finite_column (days t : nat) (all_paths : list series) :
  (t < days)%nat ->
  (forall path, In path all_paths -> length path = days /\ all_finite path) ->
  all_finite (column t all_paths).
Proof.
  intros Ht H x Hx. unfold column in Hx. apply in_map_iff in Hx.
  destruct Hx as (path & <- & Hp). destruct (H path Hp) as (Hlen & Hfin).
  apply Hfin. apply nth_In. lia.
Qed.

Lemma nonneg_finite_all_finite (s : series) :
  nonneg_finite s -> all_finite s.
Proof. intros H x Hx. destruct (H x Hx) as (v & -> & _). now exists v. Qed.

Lemma percentile_mono (col : series) (q1 q2 : Q) :
  col <> [] -> all_finite col -> 0 <= q1 -> q1 <= q2 ->
  fle (percentile col q1) (percentile col q2) = true.
Proof.
  intros Hne Hfin H1 H12. destruct (all_finite_map col Hfin) as (l & ->).
  assert (Hl : l <> []) by (destruct l; [now destruct Hne | discriminate]).
  rewrite !percentile_finite by (try exact Hl; lra).
  now apply qpercentile_mono.
Qed.

Lemma axis0_mono (days : nat) (all_paths : list series) (q1 q2 : Q)
  (t : nat) :
  all_paths <> [] -> (t < days)%nat ->
  (forall path, In path all_paths -> length path = days /\ all_finite path) ->
  0 <= q1 -> q1 <= q2 ->
  fle (nth t (percentile_axis0 days all_paths q1) NaN)
      (nth t (percentile_axis0 days all_paths q2) NaN) = true.
Proof.
  intros Hne Ht Hfin H1 H12. rewrite !axis0_nth by exact Ht.
  apply percentile_mono; try assumption.
  - destruct all_paths; [congruence | discriminate].
  - now apply (finite_column days).
Qed.

(** C4 (as amended).  For any non-empty set of simulated paths whose
    prices are all finite and non-negative numbers, and every day-offset t
    within the horizon, the percentile bands satisfy
    p5[t] <= p50[t] <= p95[t]. *)
Theorem percentile_bands_ordered (days : nat) (all_paths : list series)
  (t : nat) :
  all_paths <> [] -> (t < days)%nat ->
  (forall path, In path all_paths ->
     length path = days /\ nonneg_finite path) ->
  ordered_at t (reduce_paths days all_paths).
Proof.
  intros Hne Ht Hpos. unfold ordered_at, reduce_paths. cbn [p5 p50 p95].
  assert (Hfin : forall path, In path all_paths ->
                   length path = days /\ all_finite path).
  { intros path Hp. destruct (Hpos path Hp) as (Hlen & Hnn).
    split; [exact Hlen | now apply nonneg_finite_all_finite]. }
  split; apply axis0_mono; try assumption; lra.
Qed.

Lemma percentile_bands_ordered_witness :
  let all_paths :=
    [[Fin 101; Fin 99]; [Fin 98; Fin 97]; [Fin 103; Fin 108];
     [Fin 100; Fin 95]] in
  all_paths <> [] /\ (1 < 2)%nat /\
  (forall path, In path all_paths ->
     length path = 2%nat /\ nonneg_finite path)
  /\ ordered_at 1 (reduce_paths 2 all_paths).
Proof.
  intro all_paths.
  assert (Hne : all_paths <> []) by discriminate.
  assert (Ht : (1 < 2)%nat) by lia.
  assert (Hpos : forall path, In path all_paths ->
                   length path = 2%nat /\ nonneg_finite path).
  { intros path Hp. simpl in Hp.
    repeat (destruct Hp as [<- | Hp];
            [split; [reflexivity|];
             intros x Hx; simpl in Hx;
             repeat (destruct Hx as [<- | Hx];
                     [eexists; split; [reflexivity | lra]|]);
             destruct Hx|]).
    destruct Hp. }
  split; [exact Hne | split; [exact Ht | split; [exact Hpos|]]].
  exact (percentile_bands_ordered 2 all_paths 1 Hne Ht Hpos).
Defined.

(** C4 fails as stated: on the two-row price series 100, 101 there is a
    single return, its sample standard deviation is NaN, every simulated
    price is NaN and so are the three bands, and NaN <= NaN is false. *)
Lemma nan_bands_counterexample :
  exists inputs b g',
    snd (analyse sqrt_approx [100; 101]) = inr inputs /\
    vol inputs = NaN /\
    simulate (last_price inputs) (mean_return inputs) (vol inputs) 1 3 ramp
    = inr (b, g') /\
    ~ ordered_at 0 b.
Proof.
  eexists _, _, _. split; [reflexivity|]. split; [reflexivity|].
  split; [reflexivity|].
  intros [H _]. vm_compute in H. discriminate H.
Qed.

(** C3.  With meanReturn = 0 and volatility = 0 (and at least one
    simulation, as the slider guarantees), the run raises nothing, every
    one of the n simulated paths has one price per day-offset and equals
    lastPrice at every offset, and p5, p50 and p95 all equal lastPrice at
    every offset. *)
Theorem zero_drift_zero_vol_flat (lp : Q) (days n : nat) (g : rng) (t : nat) :
  (0 < n)%nat -> (t < days)%nat ->
  exists all_paths b g',
    simulate_paths lp (Fin 0) (Fin 0) days n g = inr (all_paths, g') /\
    simulate lp (Fin 0) (Fin 0) days n g = inr (b, g') /\
    length all_paths = n /\
    (forall path, In path all_paths ->
       length path = days /\ feq (nth t path NaN) (Fin lp)) /\
    flat_at lp t b.
Proof.
  intros Hn Ht.
  destruct (simulate_paths_finite lp 0 0 days n (Qle_refl 0) g) as (g' & E).
  set (P := qpaths lp 0 0 days n g) in *.
  exists (map (map Fin) P), (reduce_paths days (map (map Fin) P)), g'.
  assert (Hlen : forall qp, In qp P -> (t < length qp)%nat).
  { intros qp Hq. rewrite (qpaths_shape _ _ _ _ _ _ _ Hq). exact Ht. }
  split; [exact E|]. split; [now rewrite simulate_unfold, E|].
  split; [unfold P; now rewrite length_map, qpaths_count|]. split.
  - intros path Hp. apply in_map_iff in Hp. destruct Hp as (qp & <- & Hq).
    split; [rewrite length_map; now apply (qpaths_shape _ _ _ _ _ _ _ Hq)|].
    rewrite nth_map_Fin by now apply Hlen. cbn [feq].
    apply all_eq_nth; [now apply (zero_paths_flat _ _ _ _ _ Hq)|].
    now apply Hlen.
  - assert (Hcol : all_eq lp (map (fun qp => nth t qp 0) P)).
    { unfold all_eq. apply Forall_forall. intros x Hx.
      apply in_map_iff in Hx. destruct Hx as (qp & <- & Hq).
      apply all_eq_nth; [now apply (zero_paths_flat _ _ _ _ _ Hq)|].
      now apply Hlen. }
    assert (Hne : map (fun qp => nth t qp 0) P <> []).
    { intro C. apply (f_equal (@length _)) in C.
      unfold P in C. rewrite length_map, qpaths_count in C. simpl in C. lia. }
    unfold flat_at, reduce_paths. cbn [p5 p50 p95].
    rewrite !axis0_nth by exact Ht.
    rewrite (column_finite t P Hlen).
    rewrite !percentile_finite by (try exact Hne; lra).
    repeat split; apply qpercentile_flat; try assumption; lra.
Qed.

Lemma zero_drift_zero_vol_flat_witness :
  (0 < 3)%nat /\ (1 < 2)%nat /\
  exists b g', simulate 250 (Fin 0) (Fin 0) 2 3 ramp = inr (b, g')
               /\ flat_at 250 1 b.
Proof.
  assert (Hn : (0 < 3)%nat) by lia.
  assert (Ht : (1 < 2)%nat) by lia.
  split; [exact Hn | split; [exact Ht|]].
  destruct (zero_drift_zero_vol_flat 250 2 3 ramp 1 Hn Ht)
    as (all_paths & b & g' & _ & Hb & _ & _ & Hflat).
  exists b, g'. split; [exact Hb | exact Hflat].
Defined.

(** ** Monte Carlo: the generator *)

Lemma draws_ext (mu sigma : fval) (days : nat) (g g' : rng) :
  (forall i, (i < days)%nat -> g i = g' i) ->
  draws mu sigma days g = draws mu sigma days g'.
Proof.
  intro H. unfold draws. apply map_ext_in.
  intros i Hi. apply in_seq in Hi. rewrite H by lia. reflexivity.
Qed.

Lemma simulate_paths_ext (lp : Q) (mu sigma : fval) (days n : nat) :
  forall g g',
  (forall i, (i < n * days)%nat -> g i = g' i) ->
  outcome (simulate_paths lp mu sigma days n g)
  = outcome (simulate_paths lp mu sigma days n g').
Proof.
  induction n as [|k IH]; intros g g' H; [reflexivity|].
  rewrite !simulate_paths_step.
  destruct (flt sigma (Fin 0)); [reflexivity|].
  assert (Hrec : outcome (simulate_paths lp mu sigma days k (advance days g))
                 = outcome (simulate_paths lp mu sigma days k
                                           (advance days g'))).
  { apply IH. intros i Hi. unfold advance. apply H. simpl. lia. }
  rewrite (draws_ext mu sigma days g g')
    by (intros i Hi; apply H; simpl; lia).
  destruct (simulate_paths lp mu sigma days k (advance days g)) as [e|m];
    destruct (simulate_paths lp mu sigma days k (advance days g')) as [e'|m'];
    cbn [outcome fst] in *; congruence.
Qed.

Lemma simulate_paths_state (lp : Q) (mu sigma : fval) (days n : nat) :
  forall g P g1,
  simulate_paths lp mu sigma days n g = inr (P, g1) ->
  forall i, g1 i = g (n * days + i)%nat.
Proof.
  induction n as [|k IH]; intros g P g1 H i.
  - injection H as _ <-. reflexivity.
  - rewrite simulate_paths_step in H.
    destruct (flt sigma (Fin 0)); [discriminate|].
    destruct (simulate_paths lp mu sigma days k (advance days g))
      as [e|[P' g']] eqn:E; [discriminate|].
    injection H as _ <-. cbn [snd]. rewrite (IH _ _ _ E).
    unfold advance. f_equal. simpl. lia.
Qed.

(** C5 (as amended).  The simulation reads the process-wide generator,
    which the script neither receives nor seeds.  A run consumes exactly
    num_simulations * days deviates of it, and its outcome (the bands p5,
    p50 and p95, or the error) is determined by its inputs and those
    deviates: two runs with the same inputs whose generators yield the same
    next num_simulations * days deviates have identical outcomes. *)
Theorem simulate_determined_by_draws (lp : Q) (mu sigma : fval)
  (days n : nat) (g g' : rng) :
  (forall i, (i < n * days)%nat -> g i = g' i) ->
  outcome (simulate lp mu sigma days n g)
  = outcome (simulate lp mu sigma days n g')
  /\ forall b g1, simulate lp mu sigma days n g = inr (b, g1) ->
                  forall i, g1 i = g (n * days + i)%nat.
Proof.
  intro H. split.
  - pose proof (simulate_paths_ext lp mu sigma days n g g' H) as E.
    rewrite !simulate_unfold.
    destruct (simulate_paths lp mu sigma days n g) as [e|m];
      destruct (simulate_paths lp mu sigma days n g') as [e'|m'];
      cbn [outcome fst] in *; congruence.
  - intros b g1 Hb i. rewrite simulate_unfold in Hb.
    destruct (simulate_paths lp mu sigma days n g) as [e|[P g2]] eqn:E;
      [discriminate|].
    injection Hb as _ <-. cbn [snd].
    now apply (simulate_paths_state _ _ _ _ _ _ _ _ E).
Qed.

Lemma simulate_determined_by_draws_witness :
  let g' : rng := fun i => if (i <? 6)%nat then ramp i else 0 in
  (forall i, (i < 3 * 2)%nat -> ramp i = g' i) /\
  outcome (simulate 100 (Fin (1 # 100)) (Fin (1 # 10)) 2 3 ramp)
  = outcome (simulate 100 (Fin (1 # 100)) (Fin (1 # 10)) 2 3 g').
Proof.
  intro g'.
  assert (H : forall i, (i < 3 * 2)%nat -> ramp i = g' i).
  { intros i Hi. unfold g'.
    destruct (i <? 6)%nat eqn:E; [reflexivity|].
    apply Nat.ltb_ge in E. simpl in Hi. lia. }
  split; [exact H|].
  exact (proj1 (simulate_determined_by_draws
                  100 (Fin (1 # 100)) (Fin (1 # 10)) 2 3 ramp g' H)).
Defined.

(** C5 fails as stated: there is no seed, and two runs with identical
    inputs, one after the other in the same process, give different
    medians, because the second run starts where the first one left the
    generator. *)
Lemma simulate_twice_counterexample :
  exists b1 g1 b2 g2,
    simulate 100 (Fin (1 # 100)) (Fin (1 # 10)) 2 3 ramp = inr (b1, g1) /\
    simulate 100 (Fin (1 # 100)) (Fin (1 # 10)) 2 3 g1 = inr (b2, g2) /\
    ~ feq (nth 0 (p50 b1) NaN) (nth 0 (p50 b2) NaN).
Proof.
  eexists _, _, _, _. split; [reflexivity|]. split; [reflexivity|].
  vm_compute. discriminate.
Qed.

(** ** Short series: no guard, NaN metrics *)

Lemma returns_short (ps : list Q) : (length ps < 2)%nat -> returns ps = [].
Proof.
  intro H. destruct ps as [|p [|? ?]]; [reflexivity | | simpl in H; lia].
  unfold returns. now rewrite pct_change_cons.
Qed.

Lemma trading_days_pos : (0 < trading_days)%nat.
Proof. unfold trading_days. lia. Qed.

Lemma risk_metrics_no_returns (sqrtQ : Q -> Q) (ps : list Q) :
  returns ps = [] ->
  annual_return (risk_metrics sqrtQ ps) = NaN /\
  annual_volatility (risk_metrics sqrtQ ps) = NaN /\
  down_days_pct (risk_metrics sqrtQ ps) = NaN.
Proof.
  intro E. unfold risk_metrics. rewrite E.
  cbn [annual_return annual_volatility down_days_pct].
  change (mean []) with NaN. change (fadd (Fin 1) NaN) with NaN.
  rewrite (fpow_nan _ trading_days_pos).
  repeat split.
Qed.

Lemma simulate_paths_total (lp : Q) (mu sigma : fval) (days n : nat) :
  flt sigma (Fin 0) = false ->
  forall g, exists sim, simulate_paths lp mu sigma days n g = inr sim.
Proof.
  intro Hs. induction n as [|k IH]; intro g; [eexists; reflexivity|].
  rewrite simulate_paths_step, Hs.
  destruct (IH (advance days g)) as (more & ->). eexists. reflexivity.
Qed.

Lemma run_forecasts_total (lp : Q) (mu sigma : fval) (n : nat) :
  flt sigma (Fin 0) = false ->
  forall (horizons : list (string * nat)) (g : rng),
  exists out, run_forecasts lp mu sigma n horizons g = inr out.
Proof.
  intro Hs. induction horizons as [|[label days] rest IH]; intro g;
    [eexists; reflexivity|].
  cbn [run_forecasts]. rewrite simulate_unfold.
  destruct (simulate_paths_total lp mu sigma days n Hs g) as (sim & ->).
  unfold bind at 1. cbn [snd].
  destruct (IH (snd sim)) as (more & ->). eexists. reflexivity.
Qed.

(** C6 (as amended).  The script has no InsufficientDataError guard: when
    the prepared price series has fewer than 2 rows the return series is
    empty and annualized return, annualized volatility and downside
    frequency are computed as NaN; on a single-row series the computation
    raises nothing at all: the simulation is fed NaN mean and volatility
    and runs through every horizon. *)
Theorem short_series_gives_nan (sqrtQ : Q -> Q) (ps : list Q) :
  (length ps < 2)%nat ->
  returns ps = [] /\
  annual_return (fst (analyse sqrtQ ps)) = NaN /\
  annual_volatility (fst (analyse sqrtQ ps)) = NaN /\
  down_days_pct (fst (analyse sqrtQ ps)) = NaN /\
  (forall p, ps = [p] ->
     snd (analyse sqrtQ ps)
     = inr {| last_price := p; mean_return := NaN; vol := NaN |} /\
     forall n g, exists out, snd (run_script sqrtQ ps n g) = inr out).
Proof.
  intro H. pose proof (returns_short ps H) as E.
  destruct (risk_metrics_no_returns sqrtQ ps E) as (H1 & H2 & H3).
  assert (Hin : forall p, ps = [p] ->
            snd (analyse sqrtQ ps)
            = inr {| last_price := p; mean_return := NaN; vol := NaN |}).
  { intros p ->. unfold analyse. cbn [snd]. rewrite E. reflexivity. }
  split; [exact E|]. unfold analyse at 1 2 3. cbn [fst].
  repeat split; try assumption; [now apply Hin|].
  intros n g. unfold run_script. cbn [snd]. rewrite (Hin p H0).
  unfold bind. cbn [last_price mean_return vol].
  now apply run_forecasts_total.
Qed.

Lemma short_series_gives_nan_witness :
  (length [100] < 2)%nat /\
  annual_return (fst (analyse sqrt_approx [100])) = NaN.
Proof.
  assert (H : (length [100] < 2)%nat) by (simpl; lia).
  split; [exact H|].
  exact (proj1 (proj2 (short_series_gives_nan sqrt_approx [100] H))).
Defined.

(** C6 fails as stated: on the single-row series 100 the run raises
    nothing and reports NaN as annualized return and volatility. *)
Lemma single_row_counterexample :
  (length [100] < 2)%nat /\
  annual_return (fst (analyse sqrt_approx [100])) = NaN /\
  annual_volatility (fst (analyse sqrt_approx [100])) = NaN /\
  exists inputs, snd (analyse sqrt_approx [100]) = inr inputs.
Proof.
  split; [simpl; lia|]. split; [vm_compute; reflexivity|].
  split; [vm_compute; reflexivity|]. eexists. vm_compute. reflexivity.
Qed.

(** ** Rolling volatility *)

Lemma count_le_length (s : series) : (count s <= length s)%nat.
Proof. unfold count, dropna. apply filter_length_le. Qed.

Lemma window_length (w i : nat) (s : series) :
  (length (window_at w i s) <= w)%nat /\
  (length (window_at w i s) <= length s)%nat.
Proof.
  unfold window_at. rewrite length_skipn, length_firstn. lia.
Qed.

Lemma window_has_current (w i : nat) (s : series) (r : fval) :
  (0 < w)%nat -> nth_error s i = Some r -> In r (window_at w i s).
Proof.
  intros Hw Hr. apply (nth_error_In _ (i - (i + 1 - w))).
  unfold window_at. rewrite nth_error_skipn, nth_error_firstn.
  replace (i + 1 - w + (i - (i + 1 - w)))%nat with i by lia.
  assert (E : (i <? i + 1)%nat = true) by (apply Nat.ltb_lt; lia).
  now rewrite E.
Qed.

Lemma rolling_vol_length (sqrtQ : Q -> Q) (rets : series) :
  length (rolling_vol sqrtQ rets) = length rets.
Proof.
  unfold rolling_vol, rolling_std. now rewrite !length_map, length_seq.
Qed.

Lemma rolling_vol_cell (sqrtQ : Q -> Q) (rets : series) (i : nat) (v : fval) :
  nth_error (rolling_vol sqrtQ rets) i = Some v ->
  (i < length rets)%nat /\
  v = fmul (if (count (window_at trading_days i rets) <? trading_days)%nat
            then NaN else std sqrtQ (window_at trading_days i rets))
           (Fin (sqrtQ 252)).
Proof.
  unfold rolling_vol, rolling_std.
  rewrite !nth_error_map, nth_error_seq.
  destruct (i <? length rets)%nat eqn:E; [|discriminate].
  apply Nat.ltb_lt in E. cbn [option_map Nat.add]. intro H.
  injection H as <-. split; [exact E | reflexivity].
Qed.

Lemma filter_full {A : Type} (f : A -> bool) (l : list A) :
  length (filter f l) = length l -> forall x, In x l -> f x = true.
Proof.
  intro H. apply filter_length_forallb in H.
  rewrite forallb_forall in H. exact H.
Qed.

(** A row with a defined rolling volatility has a defined return: its
    window is full, and the row is the last cell of its window. *)
Lemma rolling_vol_defined (sqrtQ : Q -> Q) (rets : series) (i : nat)
  (v r : fval) :
  nth_error (rolling_vol sqrtQ rets) i = Some v ->
  nth_error rets i = Some r ->
  notna v = true -> notna r = true.
Proof.
  intros Hv Hr Hdef. apply rolling_vol_cell in Hv. destruct Hv as (_ & ->).
  destruct (count (window_at trading_days i rets) <? trading_days)%nat eqn:E;
    [discriminate Hdef|].
  apply Nat.ltb_ge in E.
  pose proof (count_le_length (window_at trading_days i rets)) as Hc.
  destruct (window_length trading_days i rets) as (Hw & _).
  apply (filter_full notna (window_at trading_days i rets)).
  - unfold count, dropna in *. lia.
  - apply window_has_current; [apply trading_days_pos | exact Hr].
Qed.

Lemma rolling_vol_short (sqrtQ : Q -> Q) (rets : series) :
  (length rets < trading_days)%nat ->
  forall v, In v (rolling_vol sqrtQ rets) -> v = NaN.
Proof.
  intros Hlen v Hv. apply In_nth_error in Hv. destruct Hv as (i & Hi).
  apply rolling_vol_cell in Hi. destruct Hi as (_ & ->).
  pose proof (count_le_length (window_at trading_days i rets)) as Hc.
  destruct (window_length trading_days i rets) as (_ & Hw).
  assert (E : (count (window_at trading_days i rets) <? trading_days)%nat
              = true) by (apply Nat.ltb_lt; lia).
  now rewrite E.
Qed.

(** ** Regime table *)

Lemma zip3_combine (r v : series) (g : list RegimeLabel) :
  zip3 r v g = map pack (combine r (combine v g)).
Proof.
  revert v g. induction r as [|a r IH]; intros [|b v] [|c g];
    try reflexivity.
  cbn [zip3 combine map]. now rewrite IH.
Qed.

Lemma nth_error_combine {A B : Type} (l : list A) : forall (m : list B) i x y,
  nth_error (combine l m) i = Some (x, y) <->
  nth_error l i = Some x /\ nth_error m i = Some y.
Proof.
  induction l as [|a l IH]; intros [|b m] [|i] x y; cbn [combine nth_error];
    try (split; [discriminate | intros [H1 H2]; discriminate]).
  - split; [intro H; injection H as <- <-; auto|].
    intros [H1 H2]. injection H1 as <-. injection H2 as <-. reflexivity.
  - apply IH.
Qed.

Lemma filter_filter {A : Type} (f g : A -> bool) (l : list A) :
  filter f (filter g l) = filter (fun x => g x && f x) l.
Proof.
  induction l as [|a l IH]; [reflexivity|].
  cbn [filter]. destruct (g a); cbn [filter andb]; [|exact IH].
  destruct (f a); now rewrite IH.
Qed.

Lemma filter_fst_combine {A B : Type} (f : A -> bool) (l : list A) :
  forall m : list B, length l = length m ->
  length (filter (fun p => f (fst p)) (combine l m)) = length (filter f l).
Proof.
  induction l as [|a l IH]; intros [|b m] H; try discriminate;
    [reflexivity|].
  cbn [combine filter fst]. injection H as H.
  destruct (f a); cbn [length]; now rewrite IH.
Qed.

Lemma filter_snd_combine {A B : Type} (f : B -> bool) (l : list A) :
  forall m : list B, length l = length m ->
  length (filter (fun p => f (snd p)) (combine l m)) = length (filter f m).
Proof.
  induction l as [|a l IH]; intros [|b m] H; try discriminate;
    [reflexivity|].
  cbn [combine filter snd]. injection H as H.
  destruct (f b); cbn [length]; now rewrite IH.
Qed.

Lemma split_by_label {A : Type} (g : A -> bool) (lab : A -> RegimeLabel)
  (l : list A) :
  (length (filter (fun x => g x && label_eqb (lab x) HighVolatility) l)
   + length (filter (fun x => g x && label_eqb (lab x) LowVolatility) l))%nat
  = length (filter g l).
Proof.
  induction l as [|a l IH]; [reflexivity|].
  cbn [filter]. destruct (g a); cbn [andb]; [|exact IH].
  destruct (lab a); cbn [label_eqb length]; lia.
Qed.

Section RegimeTable.

Variable sqrtQ : Q -> Q.
Variable rets : series.

Lemma regime_length : length (regime sqrtQ rets) = length rets.
Proof.
unfold regime. cbv zeta. now rewrite length_map, rolling_vol_length.
Qed.

Lemma rows_defined_return p :
In p (table_rows sqrtQ rets) -> vol_defined p = true ->
notna (fst p) = true.
Proof.
intros Hp Hv. apply In_nth_error in Hp. destruct Hp as (i & Hi).
destruct p as [r [v g]]. apply nth_error_combine in Hi.
destruct Hi as (Hr & Hvg). apply nth_error_combine in Hvg.
destruct Hvg as (Hvol & _).
exact (rolling_vol_defined sqrtQ rets i v r Hvol Hr Hv).
Qed.

Lemma regime_df_rows :
regime_df sqrtQ rets = map pack (filter vol_defined (table_rows sqrtQ rets)).
Proof.
unfold regime_df. rewrite zip3_combine. fold (table_rows sqrtQ rets).
rewrite filter_map_swap. f_equal. apply filter_ext_in.
intros p Hp. destruct p as [r [v g]]. unfold vol_defined.
cbn [pack row_complete fst snd].
destruct (notna v) eqn:Ev; [|apply andb_false_r].
pose proof (rows_defined_return (r, (v, g)) Hp Ev) as Hr.
cbn [fst] in Hr. now rewrite Hr.
Qed.

Lemma group_returns_members (l : RegimeLabel) :
group_returns l (regime_df sqrtQ rets)
= defined_members l rets (rolling_vol sqrtQ rets) (regime sqrtQ rets).
Proof.
unfold group_returns, defined_members. rewrite regime_df_rows.
rewrite filter_map_swap, map_map, filter_filter. reflexivity.
Qed.

Lemma members_count (l : RegimeLabel) :
count (defined_members l rets (rolling_vol sqrtQ rets) (regime sqrtQ rets))
= length (filter (fun p => vol_defined p && has_label l p)
                 (table_rows sqrtQ rets)).
Proof.
unfold count. rewrite dropna_all; [apply length_map|].
intros x Hx. unfold defined_members in Hx. apply in_map_iff in Hx.
destruct Hx as (p & <- & Hp). apply filter_In in Hp.
destruct Hp as (Hin & Hcond). apply andb_prop in Hcond.
pose proof (rows_defined_return p Hin (proj1 Hcond)) as H.
unfold notna in H. now apply negb_true_iff in H.
Qed.

Lemma rows_defined_count :
length (filter vol_defined (table_rows sqrtQ rets))
= count (rolling_vol sqrtQ rets).
Proof.
unfold table_rows, vol_defined, count, dropna.
rewrite (filter_snd_combine (fun q => notna (fst q))).
- apply filter_fst_combine.
  now rewrite rolling_vol_length, regime_length.
- rewrite length_combine, rolling_vol_length, regime_length. lia.
Qed.

Lemma groupby_agg_total (df : list (fval * fval * RegimeLabel)) :
total_count (groupby_agg sqrtQ df)
= (count (group_returns HighVolatility df)
   + count (group_returns LowVolatility df))%nat.
Proof.
unfold groupby_agg, group_returns. cbn [flat_map].
destruct (filter (fun row => label_eqb (snd row) HighVolatility) df);
  destruct (filter (fun row => label_eqb (snd row) LowVolatility) df);
  cbn [app total_count fold_right snd agg s_count map count dropna
       filter length]; lia.
Qed.

Lemma group_row_In (df : list (fval * fval * RegimeLabel)) l l' st :
In (l', st)
   (match filter (fun row => label_eqb (snd row) l) df with
    | [] => []
    | _ :: _ => [(l, agg sqrtQ (group_returns l df))]
    end)
<-> l' = l /\ group_returns l df <> []
    /\ st = agg sqrtQ (group_returns l df).
Proof.
unfold group_returns.
destruct (filter (fun row => label_eqb (snd row) l) df) as [|x xs].
- cbn [In map]. split; [intros [] | intros (_ & H & _); now apply H].
- cbn [In]. split.
  + intros [H | []]. injection H as <- <-.
    repeat split. discriminate.
  + intros (-> & _ & ->). now left.
Qed.

Lemma groupby_agg_In (df : list (fval * fval * RegimeLabel)) l st :
In (l, st) (groupby_agg sqrtQ df) <->
group_returns l df <> [] /\ st = agg sqrtQ (group_returns l df).
Proof.
unfold groupby_agg. cbn [flat_map]. rewrite app_nil_r, in_app_iff.
rewrite !group_row_In.
destruct l; intuition discriminate.
Qed.

End RegimeTable.

(** C7.  For every return series, the counts of the regime table summed
    over both labels equal the number of return entries whose rolling
    volatility is defined; each label's mean, standard deviation and count
    are those of the returns on rows with a defined rolling volatility and
    that label, so a row with an undefined rolling volatility contributes
    to no regime; and a label has a row in the table exactly when such
    returns exist. *)
Theorem regime_counts_cover_defined (sqrtQ : Q -> Q) (rets : series) :
  let vols := rolling_vol sqrtQ rets in
  let regs := regime sqrtQ rets in
  total_count (regime_stats sqrtQ rets) = count vols /\
  forall l st,
    In (l, st) (regime_stats sqrtQ rets) <->
    defined_members l rets vols regs <> [] /\
    st = agg sqrtQ (defined_members l rets vols regs).
Proof.
  intros vols regs. unfold regime_stats. split.
  - rewrite groupby_agg_total, !group_returns_members, !members_count.
    unfold has_label.
    rewrite (split_by_label vol_defined (fun p => snd (snd p))).
    apply rows_defined_count.
  - intros l st. rewrite groupby_agg_In, group_returns_members.
    reflexivity.
Qed.

Lemma filter_none {A : Type} (f : A -> bool) (l : list A) :
  (forall x, In x l -> f x = false) -> filter f l = [].
Proof.
  induction l as [|a l IH]; intro H; [reflexivity|].
  cbn [filter]. rewrite (H a (or_introl eq_refl)).
  apply IH. intros x Hx. apply H. now right.
Qed.

(** C10.  For every return series with fewer than 252 entries, every
    rolling-volatility value is undefined (NaN), the regime table is empty
    once rows with an undefined cell are dropped, and the regime statistics
    have no group; all of this is computed without raising. *)
Theorem short_returns_no_regime (sqrtQ : Q -> Q) (rets : series) :
  (length rets < 252)%nat ->
  length (rolling_vol sqrtQ rets) = length rets /\
  (forall v, In v (rolling_vol sqrtQ rets) -> v = NaN) /\
  regime_df sqrtQ rets = [] /\
  regime_stats sqrtQ rets = [].
Proof.
  intro Hlen.
  pose proof (rolling_vol_short sqrtQ rets Hlen) as Hnan.
  assert (Hdf : regime_df sqrtQ rets = []).
  { rewrite regime_df_rows. rewrite filter_none; [reflexivity|].
    intros [r [v g]] Hp. cbn [fst snd].
    apply in_combine_r, in_combine_l in Hp.
    now rewrite (Hnan v Hp). }
  split; [apply rolling_vol_length | split; [exact Hnan | split]].
  - exact Hdf.
  - unfold regime_stats. rewrite Hdf. reflexivity.
Qed.

Lemma short_returns_no_regime_witness :
  let rets := [Fin (1 # 50); Fin (- (1 # 102)); Fin (4 # 101)] in
  (length rets < 252)%nat /\ regime_stats sqrt_approx rets = [].
Proof.
  intro rets.
  assert (H : (length rets < 252)%nat) by (simpl; lia).
  split; [exact H|].
  exact (proj2 (proj2 (proj2 (short_returns_no_regime sqrt_approx rets H)))).
Defined.

(** ** Date-column detection *)

Section Detection.

Variable cell : Type.
Variable parse_cell : cell -> option (option Z).

Lemma to_datetime_some (col : list cell) : forall parsed,
  to_datetime parse_cell col = Some parsed ->
  forallb (fun c => negb (raises parse_cell c)) col = true /\
  notna_sum parsed = length (filter (parses parse_cell) col).
Proof.
  induction col as [|c rest IH]; intros parsed H.
  - injection H as <-. split; reflexivity.
  - cbn [to_datetime] in H.
    destruct (parse_cell c) as [v|] eqn:Ec; [|discriminate].
    destruct (to_datetime parse_cell rest) as [vs|] eqn:Er; [|discriminate].
    injection H as <-. destruct (IH vs eq_refl) as (Hall & Hcnt).
    assert (Hr : raises parse_cell c = false)
      by (unfold raises; now rewrite Ec).
    assert (Hp : parses parse_cell c = is_timestamp v)
      by (unfold parses; rewrite Ec; now destruct v).
    cbn [forallb filter]. rewrite Hr, Hp, Hall. split; [reflexivity|].
    unfold notna_sum in *. cbn [filter].
    destruct (is_timestamp v); cbn [length]; now rewrite Hcnt.
Qed.

Lemma to_datetime_none (col : list cell) :
  to_datetime parse_cell col = None ->
  forallb (fun c => negb (raises parse_cell c)) col = false.
Proof.
  induction col as [|c rest IH]; intro H; [discriminate|].
  cbn [to_datetime] in H. cbn [forallb].
  destruct (parse_cell c) as [v|] eqn:Ec.
  - destruct (to_datetime parse_cell rest); [discriminate|].
    rewrite (IH eq_refl). apply andb_false_r.
  - unfold raises at 1. now rewrite Ec.
Qed.

Lemma half_threshold (nrows cnt : nat) :
  Qltb (Qnat nrows * (1 # 2)) (Qnat cnt) = (nrows <? 2 * cnt)%nat.
Proof.
  assert (E : Qnat (2 * cnt) == 2 * Qnat cnt).
  { unfold Qnat. rewrite Nat2Z.inj_mul, inject_Z_mult. reflexivity. }
  destruct (nrows <? 2 * cnt)%nat eqn:H.
  - apply Nat.ltb_lt, Qnat_lt in H. apply Qltb_lt. lra.
  - apply Nat.ltb_ge, Qnat_le in H. apply Qltb_ge. lra.
Qed.

(** The test of the loop body is [qualifies]. *)
Lemma accepted_iff_qualifies (nrows : nat) (col : list cell) :
  match to_datetime parse_cell col with
  | Some parsed => Qltb (Qnat nrows * (1 # 2)) (Qnat (notna_sum parsed))
  | None => false
  end = qualifies parse_cell nrows col.
Proof.
  unfold qualifies, majority_parses.
  destruct (to_datetime parse_cell col) as [parsed|] eqn:E.
  - destruct (to_datetime_some col parsed E) as (-> & ->).
    now rewrite half_threshold.
  - now rewrite (to_datetime_none col E).
Qed.

Lemma find_date_col_step nrows name col rest :
  find_date_col parse_cell nrows ((name, col) :: rest)
  = if qualifies parse_cell nrows col then Some name
    else find_date_col parse_cell nrows rest.
Proof.
  rewrite <- accepted_iff_qualifies. cbn [find_date_col].
  destruct (to_datetime parse_cell col); reflexivity.
Qed.

Lemma find_date_col_some nrows (cols : dataframe cell) : forall name,
  find_date_col parse_cell nrows cols = Some name ->
  exists k col,
    nth_error cols k = Some (name, col) /\
    qualifies parse_cell nrows col = true /\
    forall j nm c, (j < k)%nat -> nth_error cols j = Some (nm, c) ->
                   qualifies parse_cell nrows c = false.
Proof.
  induction cols as [|[nm0 c0] rest IH]; intros name H; [discriminate|].
  rewrite find_date_col_step in H.
  destruct (qualifies parse_cell nrows c0) eqn:E.
  - injection H as <-. exists 0%nat, c0.
    split; [reflexivity | split; [exact E|]]. intros j nm c Hj. lia.
  - destruct (IH name H) as (k & col & Hk & Hq & Hbefore).
    exists (S k), col. split; [exact Hk | split; [exact Hq|]].
    intros [|j] nm c Hj Hnth.
    + injection Hnth as <- <-. exact E.
    + apply (Hbefore j nm c); [lia | exact Hnth].
Qed.

Lemma find_date_col_none nrows (cols : dataframe cell) :
  find_date_col parse_cell nrows cols = None ->
  forall nm c, In (nm, c) cols -> qualifies parse_cell nrows c = false.
Proof.
  induction cols as [|[nm0 c0] rest IH]; intros H nm c Hin; [destruct Hin|].
  rewrite find_date_col_step in H.
  destruct (qualifies parse_cell nrows c0) eqn:E; [discriminate|].
  destruct Hin as [Heq | Hin]; [injection Heq as <- <-; exact E|].
  now apply (IH H nm c).
Qed.

End Detection.

(** C8 (as amended).  Date-column detection scans the columns in order and
    selects the first one in which no cell makes date parsing raise and
    strictly more than 50% of the rows parse to a date (the remaining rows
    may only be missing values: one unparseable cell disqualifies the
    column); when no column qualifies it raises ValueError "No valid date
    column detected.". *)
Theorem detect_date_col_spec (cell : Type)
  (parse_cell : cell -> option (option Z)) (df : dataframe cell) :
  match detect_date_col parse_cell df with
  | inr name =>
      exists k col,
        nth_error df k = Some (name, col) /\
        qualifies parse_cell (len_df df) col = true /\
        forall j nm c, (j < k)%nat -> nth_error df j = Some (nm, c) ->
                       qualifies parse_cell (len_df df) c = false
  | inl e =>
      e = ValueError "No valid date column detected." /\
      forall nm c, In (nm, c) df ->
                   qualifies parse_cell (len_df df) c = false
  end.
Proof.
  unfold detect_date_col.
  destruct (find_date_col parse_cell (len_df df) df) as [name|] eqn:E.
  - exact (find_date_col_some cell parse_cell _ df name E).
  - split; [reflexivity|].
    exact (find_date_col_none cell parse_cell _ df E).
Qed.

(** C8 fails as stated: in the sample file the first column parses as a
    date on two rows out of three, yet the "Total" row makes its
    conversion raise, the column is skipped, and detection ends with
    ValueError. *)
Lemma unparseable_row_counterexample :
  (exists col, nth_error sample_frame 0 = Some ("Date"%string, col) /\
               majority_parses parse_raw (len_df sample_frame) col = true) /\
  detect_date_col parse_raw sample_frame
  = inl (ValueError "No valid date column detected.").
Proof.
  split; [eexists; split; reflexivity | reflexivity].
Qed.

(** * Further properties of the script *)

(** ** Returns: what [dropna] removes *)

Lemma ratios_dropna_count (l : list Q) : forall p,
  (length (dropna (ratios p l)) + zero_pairs_from p l)%nat = length l.
Proof.
  induction l as [|x t IH]; intro p; [reflexivity|].
  cbn [ratios zero_pairs_from]. unfold dropna in *. cbn [filter].
  specialize (IH x). unfold notna at 1.
  destruct (isna (fsub (fdiv (Fin x) (Fin p)) (Fin 1))) eqn:E.
  - apply ratio_isna in E. destruct E as (Hp & Hx).
    rewrite (Qeq_bool_true _ _ Hp), (Qeq_bool_true _ _ Hx).
    cbn [negb andb length]. lia.
  - assert (Hb : Qeq_bool p 0 && Qeq_bool x 0 = false).
    { destruct (Qeq_bool p 0) eqn:Ep; [|reflexivity].
      destruct (Qeq_bool x 0) eqn:Ex; [|reflexivity].
      apply Qeq_bool_eq in Ep, Ex.
      assert (isna (fsub (fdiv (Fin x) (Fin p)) (Fin 1)) = true)
        by (apply ratio_isna; tauto).
      congruence. }
    rewrite Hb. cbn [negb length]. lia.
Qed.

(** X1.  Whatever the prices, the return series holds no NaN, and it has
    one entry per consecutive pair of prices except the pairs that are
    both zero: its length plus the number of such pairs is n - 1. *)
Theorem returns_drop_exactly_zero_pairs (ps : list Q) :
  (length (returns ps) + zero_pairs ps)%nat = (length ps - 1)%nat /\
  forall x, In x (returns ps) -> isna x = false.
Proof.
  split.
  - destruct ps as [|p l]; [reflexivity|].
    unfold returns. rewrite pct_change_cons.
    change (dropna (NaN :: ratios p l)) with (dropna (ratios p l)).
    cbn [zero_pairs length]. rewrite ratios_dropna_count. lia.
  - intros x Hx. unfold returns, dropna in Hx. apply filter_In in Hx.
    destruct Hx as (_ & Hx). unfold notna in Hx.
    now apply negb_true_iff in Hx.
Qed.

(** ** Drawdown and stress periods together *)

Lemma drawdown_cell (ps : list Q) (i : nat) :
  (forall p, In p ps -> 0 < p) -> (i < length ps)%nat ->
  0 < nth i ps 0 /\ 0 < nth i (qcummax ps) 0 /\
  nth i ps 0 <= nth i (qcummax ps) 0 /\
  nth i (drawdown ps) NaN
  = Fin (nth i ps 0 / nth i (qcummax ps) 0 - 1).
Proof.
  intros Hpos Hi.
  pose proof (qcummax_greatest ps i Hi) as (Hin & Hmax).
  assert (Hp : In (nth i ps 0) (firstn (S i) ps)).
  { rewrite <- (firstn_skipn (S i) ps) at 1.
    rewrite app_nth1 by (rewrite length_firstn; lia).
    apply nth_In. rewrite length_firstn. lia. }
  assert (HM : 0 < nth i (qcummax ps) 0)
    by (apply Hpos; eapply firstn_In; exact Hin).
  split; [apply Hpos; eapply firstn_In; exact Hp|].
  split; [exact HM|]. split; [now apply Hmax|].
  rewrite drawdown_nth by exact Hi. apply ratio_finite. lra.
Qed.

Lemma div_above_zero (p M : Q) : 0 < p -> 0 < M -> -1 < p / M - 1.
Proof.
  intros Hp HM.
  assert (0 < p / M) by (apply Qlt_shift_div_l; lra).
  lra.
Qed.

Lemma div_below_peak (p M : Q) : 0 < M -> p <= M -> p / M - 1 <= 0.
Proof.
  intros HM Hle.
  assert (p / M <= 1) by (apply Qle_shift_div_r; lra).
  lra.
Qed.

(** X2.  With strictly positive prices no drawdown goes beyond -100%:
    every value of the curve is a finite number between -1 and 0, and the
    first value is 0. *)
Theorem drawdown_above_minus_one (ps : list Q) :
  (forall p, In p ps -> 0 < p) ->
  (forall i, (i < length ps)%nat ->
     exists v, nth i (drawdown ps) NaN = Fin v /\ -1 <= v <= 0) /\
  (ps <> [] -> feq (nth 0 (drawdown ps) NaN) (Fin 0)).
Proof.
  intro Hpos. split.
  - intros i Hi. destruct (drawdown_cell ps i Hpos Hi) as (Hp & HM & Hle & E).
    eexists. split; [exact E|].
    pose proof (div_above_zero _ _ Hp HM).
    pose proof (div_below_peak _ _ HM Hle). lra.
  - intro Hne. destruct ps as [|p l]; [congruence|].
    assert (Hi : (0 < length (p :: l))%nat) by (simpl; lia).
    destruct (drawdown_cell (p :: l) 0 Hpos Hi) as (Hp & _ & _ & E).
    rewrite E. cbn [feq nth qcummax]. cbn [nth] in Hp.
    field. intro C. rewrite C in Hp. lra.
Qed.

Lemma drawdown_above_minus_one_witness :
  let ps := [100; 102; 101; 105; 103] in
  (forall p, In p ps -> 0 < p) /\
  (forall i, (i < length ps)%nat ->
     exists v, nth i (drawdown ps) NaN = Fin v /\ -1 <= v <= 0).
Proof.
  intro ps.
  assert (Hpos : forall p, In p ps -> 0 < p).
  { intros p Hp. simpl in Hp.
    repeat (destruct Hp as [<- | Hp]; [reflexivity|]). destruct Hp. }
  split; [exact Hpos|].
  exact (proj1 (drawdown_above_minus_one ps Hpos)).
Defined.

Lemma nth_error_nth_iff {A : Type} (l : list A) (i : nat) (d v : A) :
  nth_error l i = Some v <-> (i < length l)%nat /\ nth i l d = v.
Proof.
  split.
  - intro H. assert (Hi : (i < length l)%nat)
      by (apply nth_error_Some; congruence).
    split; [exact Hi|]. now apply nth_error_nth.
  - intros (Hi & <-). now apply nth_error_nth'.
Qed.

(** X3.  With strictly positive prices, the stress periods lie between two
    price levels that leave a margin around the 30% threshold: every day
    listed as a stress period has a price strictly below three quarters of
    the highest price seen so far and is reported with its drawdown value,
    and every day whose price is at most half of that peak is listed. *)
Theorem stress_between_half_and_three_quarters_of_peak (ps : list Q) (i : nat) :
  (forall p, In p ps -> 0 < p) ->
  (forall v, In (i, v) (stress_periods (drawdown ps)) ->
     (i < length ps)%nat /\
     v = nth i (drawdown ps) NaN /\
     nth i ps 0 < (3 # 4) * nth i (qcummax ps) 0) /\
  ((i < length ps)%nat ->
   nth i ps 0 <= (1 # 2) * nth i (qcummax ps) 0 ->
   In (i, nth i (drawdown ps) NaN) (stress_periods (drawdown ps))).
Proof.
  intro Hpos. unfold stress_periods. split.
  - intros v H.
    rewrite select_from_In in H by apply length_map.
    rewrite Nat.sub_0_r, nth_error_map in H.
    rewrite (nth_error_nth_iff _ _ NaN), drawdown_length in H.
    destruct H as (_ & (Hi & Hv) & Hm).
    destruct (drawdown_cell ps i Hpos Hi) as (Hp & HM & Hle & E).
    split; [exact Hi|]. split; [congruence|].
    assert (Hn : nth_error (drawdown ps) i = Some v)
      by (apply (nth_error_nth_iff _ _ NaN); rewrite drawdown_length; auto).
    rewrite Hn in Hm. cbn [option_map] in Hm. injection Hm as Hm.
    rewrite <- Hv, E in Hm. cbn [flt] in Hm. apply Qltb_lt in Hm.
    unfold stress_threshold in Hm.
    assert (Hd : nth i ps 0 / nth i (qcummax ps) 0 < 3 # 4) by lra.
    apply (Qmult_lt_compat_r _ _ (nth i (qcummax ps) 0) HM) in Hd.
    rewrite Qmult_comm, Qmult_div_r in Hd by lra. exact Hd.
  - intros Hi Hhalf.
    destruct (drawdown_cell ps i Hpos Hi) as (Hp & HM & Hle & E).
    apply select_from_In; [apply length_map|].
    rewrite Nat.sub_0_r, nth_error_map.
    assert (Hn : nth_error (drawdown ps) i = Some (nth i (drawdown ps) NaN)).
    { apply (nth_error_nth_iff _ _ NaN). rewrite drawdown_length.
      split; [exact Hi | reflexivity]. }
    split; [lia|]. split; [exact Hn|].
    rewrite Hn. cbn [option_map]. f_equal. rewrite E. cbn [flt].
    apply Qltb_lt. unfold stress_threshold.
    assert (Hd : nth i ps 0 / nth i (qcummax ps) 0 <= 1 # 2).
    { apply Qle_shift_div_r; [exact HM | exact Hhalf]. }
    lra.
Qed.

Lemma stress_between_half_and_three_quarters_of_peak_witness :
  let ps := [100; 50; 80] in
  (forall p, In p ps -> 0 < p) /\
  In (1%nat, nth 1 (drawdown ps) NaN) (stress_periods (drawdown ps)).
Proof.
  intro ps.
  assert (Hpos : forall p, In p ps -> 0 < p).
  { intros p Hp. simpl in Hp.
    repeat (destruct Hp as [<- | Hp]; [reflexivity|]). destruct Hp. }
  split; [exact Hpos|].
  apply (proj2 (stress_between_half_and_three_quarters_of_peak ps 1 Hpos)).
  - simpl; lia.
  - vm_compute. discriminate.
Defined.

Lemma never_falls_nth (ps : list Q) : never_falls ps ->
  forall j i, (i <= j)%nat -> (j < length ps)%nat ->
  nth i ps 0 <= nth j ps 0.
Proof.
  intro H. induction j as [|j IH]; intros i Hij Hj.
  - replace i with 0%nat by lia. lra.
  - destruct (Nat.eq_dec i (S j)) as [-> | Hne]; [lra|].
    assert (nth i ps 0 <= nth j ps 0) by (apply IH; lia).
    assert (nth j ps 0 <= nth (S j) ps 0) by (apply H; lia).
    lra.
Qed.

Lemma firstn_In_nth (ps : list Q) (i : nat) (M : Q) :
  In M (firstn (S i) ps) ->
  exists k, (k <= i)%nat /\ (k < length ps)%nat /\ nth k ps 0 = M.
Proof.
  intro H. apply (In_nth _ _ 0) in H. destruct H as (k & Hk & E).
  rewrite length_firstn in Hk. exists k.
  split; [lia|]. split; [lia|].
  rewrite <- E. rewrite <- (firstn_skipn (S i) ps) at 1.
  apply app_nth1. rewrite length_firstn. lia.
Qed.

Lemma never_falls_peak (ps : list Q) (i : nat) :
  never_falls ps -> (i < length ps)%nat ->
  nth i (qcummax ps) 0 == nth i ps 0.
Proof.
  intros Hmono Hi.
  pose proof (qcummax_greatest ps i Hi) as (Hin & Hmax).
  destruct (firstn_In_nth ps i _ Hin) as (k & Hk & Hlen & E).
  assert (nth k ps 0 <= nth i ps 0) by (apply never_falls_nth; assumption).
  assert (nth i ps 0 <= nth i (qcummax ps) 0).
  { apply Hmax. rewrite <- (firstn_skipn (S i) ps) at 1.
    rewrite app_nth1 by (rewrite length_firstn; lia).
    apply nth_In. rewrite length_firstn. lia. }
  rewrite <- E in *. lra.
Qed.

(** X4.  A positive price series that never falls from one row to the
    next has a drawdown curve that is zero everywhere, a maximum drawdown
    of zero and no stress period. *)
Theorem rising_prices_no_drawdown (sqrtQ : Q -> Q) (ps : list Q) :
  (forall p, In p ps -> 0 < p) -> never_falls ps ->
  (forall v, In v (drawdown ps) -> feq v (Fin 0)) /\
  stress_periods (drawdown ps) = [] /\
  (ps <> [] -> feq (max_drawdown (risk_metrics sqrtQ ps)) (Fin 0)).
Proof.
  intros Hpos Hmono.
  assert (Hzero : forall v, In v (drawdown ps) -> feq v (Fin 0)).
  { intros v Hv. apply (In_nth _ _ NaN) in Hv.
    destruct Hv as (i & Hi & <-). rewrite drawdown_length in Hi.
    destruct (drawdown_cell ps i Hpos Hi) as (Hp & HM & _ & ->).
    cbn [feq]. rewrite (never_falls_peak ps i Hmono Hi).
    field. intro C. rewrite C in Hp. lra. }
  split; [exact Hzero|]. split.
  - unfold stress_periods. apply select_from_none. intros b Hb.
    apply in_map_iff in Hb. destruct Hb as (v & <- & Hv).
    specialize (Hzero v Hv). destruct v as [q| | |]; simpl in Hzero;
      try contradiction.
    unfold flt. apply Qltb_ge. rewrite Hzero. unfold stress_threshold. lra.
  - intro Hne. cbn [risk_metrics max_drawdown]. apply Hzero.
    assert (Hfin : all_finite (drawdown ps)).
    { intros x Hx. specialize (Hzero x Hx).
      destruct x; simpl in Hzero; try contradiction. eauto. }
    apply (series_min_least _ Hfin).
    intro E. apply Hne. apply length_zero_iff_nil.
    rewrite <- drawdown_length, E. reflexivity.
Qed.

Lemma rising_prices_no_drawdown_witness :
  let ps := [100; 100; 103; 110] in
  (forall p, In p ps -> 0 < p) /\ never_falls ps /\
  stress_periods (drawdown ps) = [].
Proof.
  intro ps.
  assert (Hpos : forall p, In p ps -> 0 < p).
  { intros p Hp. simpl in Hp.
    repeat (destruct Hp as [<- | Hp]; [reflexivity|]). destruct Hp. }
  assert (Hmono : never_falls ps).
  { intros i Hi. simpl in Hi.
    do 3 (destruct i as [|i]; [simpl; lra|]). lia. }
  split; [exact Hpos | split; [exact Hmono|]].
  exact (proj1 (proj2 (rising_prices_no_drawdown sqrt_approx ps Hpos Hmono))).
Defined.

(** ** Statistics of a finite series *)

Lemma map_Fin_all_finite (l : list Q) : all_finite (map Fin l).
Proof.
  intros x Hx. apply in_map_iff in Hx. destruct Hx as (q & <- & _). eauto.
Qed.

Lemma fold_fadd_finite (l : list Q) : forall a,
  fold_left fadd (map Fin l) (Fin a) = Fin (fold_left Qplus l a).
Proof. induction l as [|x t IH]; intro a; [reflexivity | apply IH]. Qed.

Lemma fold_plus_qsum (l : list Q) : forall a,
  fold_left Qplus l a == a + qsum l.
Proof.
  unfold qsum. induction l as [|x t IH]; intro a; cbn [fold_left fold_right].
  - ring.
  - rewrite IH. ring.
Qed.

Lemma fsum_finite (l : list Q) :
  exists s, fsum (map Fin l) = Fin s /\ s == qsum l.
Proof.
  unfold fsum. rewrite fold_fadd_finite. eexists. split; [reflexivity|].
  rewrite fold_plus_qsum. ring.
Qed.

Lemma Qnat_pos (n : nat) : (0 < n)%nat -> 0 < Qnat n.
Proof. intro H. change 0 with (Qnat 0). now apply Qnat_lt. Qed.

Lemma fdiv_count (s : Q) (n : nat) :
  (0 < n)%nat -> fdiv (Fin s) (Fin (Qnat n)) = Fin (s / Qnat n).
Proof.
  intro H. unfold fdiv. rewrite Qeq_bool_false; [reflexivity|].
  pose proof (Qnat_pos n H). lra.
Qed.

Lemma mean_finite (l : list Q) :
  l <> [] ->
  exists m, mean (map Fin l) = Fin m /\ m == qsum l / Qnat (length l).
Proof.
  intro Hne.
  assert (Hpos : (0 < length l)%nat)
    by (destruct l; [congruence | simpl; lia]).
  unfold mean. rewrite (all_finite_notna _ (map_Fin_all_finite l)).
  rewrite length_map.
  assert (E : (0 <? length l)%nat = true) by now apply Nat.ltb_lt.
  rewrite E. destruct (fsum_finite l) as (s & -> & Hs).
  rewrite fdiv_count by exact Hpos. eexists. split; [reflexivity|].
  now rewrite Hs.
Qed.

Lemma qsum_nonneg (l : list Q) : (forall x, In x l -> 0 <= x) -> 0 <= qsum l.
Proof.
  induction l as [|x t IH]; intro H; cbn [qsum fold_right]; [lra|].
  assert (0 <= x) by (apply H; now left).
  assert (0 <= qsum t) by (apply IH; intros y Hy; apply H; now right).
  unfold qsum in *. lra.
Qed.

Lemma square_nonneg (d : Q) : 0 <= d * d.
Proof.
  destruct (Qlt_le_dec d 0) as [H | H].
  - setoid_replace (d * d) with ((- d) * (- d)) by ring.
    apply Qmult_le_0_compat; lra.
  - apply Qmult_le_0_compat; lra.
Qed.

Lemma positive_no_zero_pair (ps : list Q) :
  (forall p, In p ps -> 0 < p) -> no_zero_pair ps.
Proof.
  intros Hpos i Hi (H & _).
  assert (0 < nth i ps 0) by (apply Hpos, nth_In; lia). lra.
Qed.

(** With positive prices every return is a finite number above -1. *)
Lemma positive_returns_finite (ps : list Q) :
  (forall p, In p ps -> 0 < p) ->
  exists qs, returns ps = map Fin qs /\
             length qs = (length ps - 1)%nat /\
             forall q, In q qs -> -1 < q.
Proof.
  intro Hpos. destruct ps as [|p l]; [now exists []|].
  rewrite (returns_cons p l (positive_no_zero_pair _ Hpos)).
  assert (Hp : 0 < p) by (apply Hpos; now left).
  assert (Hl : forall x, In x l -> 0 < x)
    by (intros x Hx; apply Hpos; now right).
  clear Hpos. revert p Hp. induction l as [|x t IH]; intros p Hp.
  - exists []. repeat split. intros q [].
  - assert (Hx : 0 < x) by (apply Hl; now left).
    destruct (IH (fun y Hy => Hl y (or_intror Hy)) x Hx)
      as (qs & E & Hlen & Hq).
    exists ((x / p - 1) :: qs). cbn [ratios map length].
    rewrite ratio_finite by lra. rewrite E.
    split; [reflexivity|]. split; [simpl in *; lia|].
    intros q [<- | Hin]; [now apply div_above_zero | now apply Hq].
Qed.

Lemma fpow_finite (x : Q) (n : nat) : fpow (Fin x) n = Fin (qpow x n).
Proof.
  induction n as [|k IH]; [reflexivity|]. cbn [fpow qpow]. now rewrite IH.
Qed.

Lemma qpow_add (x : Q) (a b : nat) : qpow x (a + b) == qpow x a * qpow x b.
Proof.
  induction a as [|a IH]; cbn [qpow Nat.add]; [ring|]. rewrite IH. ring.
Qed.

Lemma qpow_trading_days_nonneg (x : Q) : 0 <= qpow x trading_days.
Proof.
  change trading_days with (126 + 126)%nat. rewrite qpow_add.
  apply square_nonneg.
Qed.

(** X5.  With strictly positive prices and at least two rows the
    annualized return is never undefined (NaN) and never below -100%: the
    mean return is compounded over an even number of periods. *)
Theorem annual_return_at_least_minus_one (sqrtQ : Q -> Q) (ps : list Q) :
  (forall p, In p ps -> 0 < p) -> (2 <= length ps)%nat ->
  fle (Fin (-1)) (annual_return (risk_metrics sqrtQ ps)) = true.
Proof.
  intros Hpos Hn.
  destruct (positive_returns_finite ps Hpos) as (qs & E & Hlen & _).
  assert (Hne : qs <> []) by (destruct qs; [simpl in Hlen; lia | discriminate]).
  unfold risk_metrics. cbn [annual_return]. rewrite E.
  destruct (mean_finite qs Hne) as (m & -> & _).
  cbn [fadd]. rewrite fpow_finite. cbn [fsub fle].
  apply Qle_bool_iff.
  pose proof (qpow_trading_days_nonneg (1 + m)). lra.
Qed.

Lemma annual_return_at_least_minus_one_witness :
  let ps := [100; 50; 20] in
  (forall p, In p ps -> 0 < p) /\ (2 <= length ps)%nat /\
  fle (Fin (-1)) (annual_return (risk_metrics sqrt_approx ps)) = true.
Proof.
  intro ps.
  assert (Hpos : forall p, In p ps -> 0 < p).
  { intros p Hp. simpl in Hp.
    repeat (destruct Hp as [<- | Hp]; [reflexivity|]). destruct Hp. }
  assert (Hn : (2 <= length ps)%nat) by (simpl; lia).
  split; [exact Hpos | split; [exact Hn|]].
  exact (annual_return_at_least_minus_one sqrt_approx ps Hpos Hn).
Defined.

Lemma filter_id_map {A : Type} (f : A -> bool) (l : list A) :
  length (filter (fun b => b) (map f l)) = length (filter f l).
Proof.
  induction l as [|x t IH]; [reflexivity|].
  cbn [map filter]. destruct (f x); cbn [length]; now rewrite IH.
Qed.

(** X6.  Whenever there is at least one return, the downside frequency is
    100 times the share of returns strictly below zero, a finite number
    between 0 and 100. *)
Theorem down_days_is_a_percentage (sqrtQ : Q -> Q) (ps : list Q) :
  returns ps <> [] ->
  exists v,
    down_days_pct (risk_metrics sqrtQ ps) = Fin v /\
    v == Qnat (length (filter (fun r => flt r (Fin 0)) (returns ps)))
         / Qnat (length (returns ps)) * 100 /\
    0 <= v <= 100.
Proof.
  intro Hne. unfold risk_metrics. cbn [down_days_pct].
  set (rets := returns ps) in *.
  assert (Hpos : (0 < length rets)%nat)
    by (destruct rets; [congruence | simpl; lia]).
  unfold bool_mean. rewrite length_map, filter_id_map.
  assert (E : (0 <? length rets)%nat = true) by now apply Nat.ltb_lt.
  rewrite E. cbn [fmul]. eexists. split; [reflexivity|].
  split; [reflexivity|].
  set (k := length (filter (fun r => flt r (Fin 0)) rets)).
  assert (Hk : (k <= length rets)%nat) by apply filter_length_le.
  pose proof (Qnat_pos _ Hpos) as Hn.
  assert (H0 : 0 <= Qnat k / Qnat (length rets)).
  { apply Qle_shift_div_l; [exact Hn|]. pose proof (Qnat_nonneg k). lra. }
  assert (H1 : Qnat k / Qnat (length rets) <= 1).
  { apply Qle_shift_div_r; [exact Hn|]. apply Qnat_le in Hk. lra. }
  split; lra.
Qed.

Lemma down_days_is_a_percentage_witness :
  returns [100; 50; 60] <> [] /\
  exists v, down_days_pct (risk_metrics sqrt_approx [100; 50; 60]) = Fin v
            /\ 0 <= v <= 100.
Proof.
  assert (H : returns [100; 50; 60] <> []) by (vm_compute; discriminate).
  split; [exact H|].
  destruct (down_days_is_a_percentage sqrt_approx [100; 50; 60] H)
    as (v & Hv & _ & Hb).
  exists v. split; [exact Hv | exact Hb].
Defined.

Lemma iloc_last_nonempty (ps : list Q) :
  ps <> [] -> iloc_last ps = inr (last ps 0).
Proof.
  intro Hne. destruct (exists_last Hne) as (l & x & ->).
  unfold iloc_last. rewrite rev_app_distr. cbn [rev app].
  now rewrite last_last.
Qed.

Lemma fsqrt_nonneg (sqrtQ : Q -> Q) (v : Q) :
  0 <= v -> fsqrt sqrtQ (Fin v) = Fin (sqrtQ v).
Proof.
  intro H. unfold fsqrt.
  assert (E : Qltb v 0 = false) by now apply Qltb_ge.
  now rewrite E.
Qed.

(** ** The risk wording *)

Lemma returns_length_le (ps : list Q) :
  (length (returns ps) <= length ps - 1)%nat.
Proof.
  destruct ps as [|p l]; [simpl; lia|].
  unfold returns. rewrite pct_change_cons.
  change (dropna (NaN :: ratios p l)) with (dropna (ratios p l)).
  pose proof (ratios_dropna_count l p). simpl. lia.
Qed.

(** X9.  A price series of at most two rows has an undefined (NaN)
    annualized volatility, and the risk summary then calls the asset
    low-risk: both comparisons against the thresholds are false. *)
Theorem short_series_is_called_low_risk (sqrtQ : Q -> Q) (ps : list Q) :
  (length ps <= 2)%nat ->
  annual_volatility (risk_metrics sqrtQ ps) = NaN /\
  risk_label (annual_volatility (risk_metrics sqrtQ ps)) = LowRisk.
Proof.
  intro H.
  assert (E : annual_volatility (risk_metrics sqrtQ ps) = NaN).
  { unfold risk_metrics. cbn [annual_volatility]. unfold std, var.
    assert (Hc : (length (dropna (returns ps)) <=? 1)%nat = true).
    { apply Nat.leb_le. pose proof (returns_length_le ps).
      pose proof (count_le_length (returns ps)). unfold count in *. lia. }
    rewrite Hc. reflexivity. }
  split; [exact E | rewrite E; reflexivity].
Qed.

Lemma short_series_is_called_low_risk_witness :
  (length [100; 250] <= 2)%nat /\
  risk_label (annual_volatility (risk_metrics sqrt_approx [100; 250]))
  = LowRisk.
Proof.
  assert (H : (length [100; 250] <= 2)%nat) by (simpl; lia).
  split; [exact H|].
  exact (proj2 (short_series_is_called_low_risk sqrt_approx [100; 250] H)).
Defined.

(** ** Monte Carlo: what a path and a band are made of *)

Lemma qcumprod_from_nth (l : list Q) : forall acc t,
  (t < length l)%nat ->
  nth t (qcumprod_from acc l) 0 == acc * qprod (firstn (S t) l).
Proof.
  unfold qprod.
  induction l as [|x r IH]; intros acc t Ht; [simpl in Ht; lia|].
  cbn [qcumprod_from]. destruct t as [|t].
  - cbn [nth firstn fold_right]. ring.
  - cbn [nth]. simpl in Ht. rewrite IH by lia.
    change (firstn (S (S t)) (x :: r)) with (x :: firstn (S t) r).
    cbn [fold_right]. ring.
Qed.

Lemma qcumprod_nth (l : list Q) (t : nat) :
  (t < length l)%nat -> nth t (qcumprod l) 0 == qprod (firstn (S t) l).
Proof.
  intro Ht. destruct l as [|x r]; [simpl in Ht; lia|].
  cbn [qcumprod]. destruct t as [|t].
  - unfold qprod. cbn [nth firstn fold_right]. ring.
  - cbn [nth]. simpl in Ht. rewrite qcumprod_from_nth by lia.
    change (firstn (S (S t)) (x :: r)) with (x :: firstn (S t) r).
    unfold qprod. cbn [fold_right]. reflexivity.
Qed.





Lemma qsort_nth_In (l : list Q) (i : nat) :
  (i < length l)%nat -> In (nth i (qsort l) 0) l.
Proof.
  intro H. apply qsort_In, nth_In. now rewrite qsort_length.
Qed.

Lemma qpercentile_within (l : list Q) (q a b : Q) :
  l <> [] -> 0 <= q -> (forall x, In x l -> a <= x <= b) ->
  exists v, qpercentile l q = Fin v /\ a <= v <= b.
Proof.
  intros Hne Hq Hab.
  assert (Hpos : (0 < length l)%nat)
    by (destruct l; [congruence | simpl; lia]).
  destruct (qpercentile_cases l q Hne Hq) as [(_ & t & E) |
    (B & f & _ & Hf & Hlo & Hhi & E)]; rewrite E; eexists;
    (split; [reflexivity|]).
  - rewrite lerp_same. apply Hab, qsort_nth_In. lia.
  - assert (Hs : nth f (qsort l) 0 <= nth (S f) (qsort l) 0).
    { apply sorted_nth; [apply qsort_sorted | lia |].
      rewrite qsort_length. lia. }
    destruct (lerp_between _ _ (Qnat (length l - 1) * (q / 100) - Qnat f) Hs)
      as (H1 & H2); [lra | lra |].
    assert (a <= nth f (qsort l) 0 <= b) by (apply Hab, qsort_nth_In; lia).
    assert (a <= nth (S f) (qsort l) 0 <= b)
      by (apply Hab, qsort_nth_In; lia).
    lra.
Qed.

Lemma within_map_Fin (a b : Q) (s : series) :
  within a b s ->
  exists l, s = map Fin l /\ forall x, In x l -> a <= x <= b.
Proof.
  induction s as [|x t IH]; intro H;
    [exists []; split; [reflexivity | intros ? []]|].
  destruct (H x (or_introl eq_refl)) as (v & -> & Hv).
  destruct IH as (l & -> & Hl); [intros y Hy; apply H; now right|].
  exists (v :: l). split; [reflexivity|].
  intros y [<- | Hy]; [exact Hv | now apply Hl].
Qed.

(** X11.  At a day-offset where every simulated price is a finite number
    between a and b, with a not negative, the three bands p5, p50 and p95
    are finite numbers between a and b as well: a percentile never leaves
    the range of the simulated prices. *)
Theorem bands_within_simulated_range (days : nat) (all_paths : list series)
  (t : nat) (a b : Q) :
  all_paths <> [] -> (t < days)%nat -> 0 <= a ->
  within a b (column t all_paths) ->
  within a b [nth t (p5 (reduce_paths days all_paths)) NaN;
              nth t (p50 (reduce_paths days all_paths)) NaN;
              nth t (p95 (reduce_paths days all_paths)) NaN].
Proof.
  intros Hne Ht _ Hw. unfold reduce_paths. cbn [p5 p50 p95].
  rewrite !axis0_nth by exact Ht.
  destruct (within_map_Fin a b _ Hw) as (l & El & Hl). rewrite El.
  assert (Hl0 : l <> []).
  { intro C. subst l. destruct all_paths; [congruence | discriminate El]. }
  rewrite !percentile_finite by (try exact Hl0; lra).
  intros x Hx. cbn [In] in Hx.
  destruct Hx as [<- | [<- | [<- | []]]];
    apply qpercentile_within; try assumption; lra.
Qed.

Lemma bands_within_simulated_range_witness :
  let all_paths := [[Fin 101]; [Fin 98]; [Fin 103]; [Fin 100]] in
  all_paths <> [] /\ (0 < 1)%nat /\ 0 <= 98 /\
  within 98 103 (column 0 all_paths) /\
  within 98 103 [nth 0 (p5 (reduce_paths 1 all_paths)) NaN;
                 nth 0 (p50 (reduce_paths 1 all_paths)) NaN;
                 nth 0 (p95 (reduce_paths 1 all_paths)) NaN].
Proof.
  intro all_paths.
  assert (Hne : all_paths <> []) by discriminate.
  assert (Ht : (0 < 1)%nat) by lia.
  assert (Ha : 0 <= 98) by discriminate.
  assert (Hw : within 98 103 (column 0 all_paths)).
  { intros x Hx. simpl in Hx.
    repeat (destruct Hx as [<- | Hx];
            [eexists; split; [reflexivity | split; discriminate]|]).
    destruct Hx. }
  split; [exact Hne | split; [exact Ht | split; [exact Ha |
    split; [exact Hw|]]]].
  exact (bands_within_simulated_range 1 all_paths 0 98 103 Hne Ht Ha Hw).
Defined.

(** ** Monte Carlo: the horizons share one generator *)

Lemma simulate_state (lp : Q) (mu sigma : fval) (days n : nat) (g : rng)
  (b : band) (g1 : rng) :
  simulate lp mu sigma days n g = inr (b, g1) ->
  forall i, g1 i = g (n * days + i)%nat.
Proof.
  intros H i. rewrite simulate_unfold in H.
  destruct (simulate_paths lp mu sigma days n g) as [e|[P g2]] eqn:E;
    [discriminate|].
  injection H as _ <-. cbn [snd].
  now apply (simulate_paths_state _ _ _ _ _ _ _ _ E).
Qed.

Lemma run_forecasts_state (lp : Q) (mu sigma : fval) (n : nat)
  (horizons : list (string * nat)) : forall g out g',
  run_forecasts lp mu sigma n horizons g = inr (out, g') ->
  map fst out = map fst horizons /\
  forall i, g' i = g (n * sum_days horizons + i)%nat.
Proof.
  induction horizons as [|[label days] rest IH]; intros g out g' H.
  - injection H as <- <-. split; [reflexivity|].
    intro i. cbn [sum_days fold_right]. f_equal. lia.
  - cbn [run_forecasts] in H. unfold bind in H.
    destruct (simulate lp mu sigma days n g) as [e|[b g1]] eqn:E1;
      [discriminate|].
    cbn [snd fst] in H.
    destruct (run_forecasts lp mu sigma n rest g1) as [e|[more g2]] eqn:E2;
      [discriminate|].
    injection H as <- <-. cbn [fst snd].
    destruct (IH g1 more g2 E2) as (Hlab & Hst).
    split; [cbn [map fst]; now rewrite Hlab|].
    intro i. rewrite Hst, (simulate_state _ _ _ _ _ _ _ _ E1).
    f_equal. cbn [sum_days fold_right snd]. fold (sum_days rest). lia.
Qed.

(** X12.  With a volatility that is not negative, the loop over the four
    horizons raises nothing, hands back the bands in the order of the
    table, and draws 1 + 21 + 252 + 1260 = 1534 deviates per simulation
    from the one shared generator: after it, the generator stands
    1534 * num_simulations deviates further. *)
Theorem forecasts_consume_1534_per_simulation (lp : Q) (mu sigma : fval)
  (n : nat) (g : rng) :
  flt sigma (Fin 0) = false ->
  exists out g',
    run_forecasts lp mu sigma n forecast_horizons g = inr (out, g') /\
    map fst out = map fst forecast_horizons /\
    forall i, g' i = g (1534 * n + i)%nat.
Proof.
  intro Hs.
  destruct (run_forecasts_total lp mu sigma n Hs forecast_horizons g)
    as ([out g'] & E).
  exists out, g'. split; [exact E|].
  destruct (run_forecasts_state _ _ _ _ _ _ _ _ E) as (Hlab & Hst).
  split; [exact Hlab|]. intro i. rewrite Hst. f_equal.
  change (sum_days forecast_horizons) with 1534%nat. lia.
Qed.

Lemma forecasts_consume_1534_per_simulation_witness :
  flt (Fin (1 # 50)) (Fin 0) = false /\
  exists out g',
    run_forecasts 100 (Fin (1 # 1000)) (Fin (1 # 50)) 2 forecast_horizons ramp
    = inr (out, g') /\
    forall i, g' i = ramp (1534 * 2 + i)%nat.
Proof.
  assert (H : flt (Fin (1 # 50)) (Fin 0) = false) by reflexivity.
  split; [exact H|].
  destruct (forecasts_consume_1534_per_simulation
              100 (Fin (1 # 1000)) (Fin (1 # 50)) 2 ramp H)
    as (out & g' & E & _ & Hst).
  exists out, g'. split; [exact E | exact Hst].
Defined.

(** ** Monte Carlo with zero volatility *)

Lemma qprod_all_eq (c : Q) (l : list Q) :
  all_eq c l -> qprod l == qpow c (length l).
Proof.
  unfold qprod. induction l as [|x t IH]; intro H; [reflexivity|].
  inversion H as [|? ? Hx Ht]; subst.
  cbn [fold_right length qpow]. rewrite (IH Ht), Hx. reflexivity.
Qed.

Lemma all_eq_firstn (c : Q) (k : nat) (l : list Q) :
  all_eq c l -> all_eq c (firstn k l).
Proof.
  unfold all_eq. rewrite !Forall_forall. intros H x Hx.
  apply H. eapply firstn_In. exact Hx.
Qed.

Lemma zero_vol_growth (mu sigma : Q) (days : nat) (g : rng) :
  sigma == 0 -> all_eq (1 + mu) (map (Qplus 1) (qnormal mu sigma days g)).
Proof.
  intro Hs. unfold qnormal, all_eq. rewrite map_map.
  apply Forall_forall. intros x Hx. apply in_map_iff in Hx.
  destruct Hx as (i & <- & _). rewrite Hs. ring.
Qed.

Lemma zero_vol_path (lp mu sigma : Q) (days : nat) (g : rng) (t : nat) :
  sigma == 0 -> (t < days)%nat ->
  nth t (qpath lp mu sigma days g) 0 == lp * qpow (1 + mu) (S t).
Proof.
  intros Hs Ht. unfold qpath.
  assert (Hlen : length (map (Qplus 1) (qnormal mu sigma days g)) = days)
    by (unfold qnormal; now rewrite !length_map, length_seq).
  rewrite (nth_indep _ 0 (lp * 0))
    by (now rewrite length_map, qcumprod_length, Hlen).
  rewrite (map_nth (Qmult lp)), qcumprod_nth by (now rewrite Hlen).
  rewrite (qprod_all_eq (1 + mu))
    by (apply all_eq_firstn; now apply zero_vol_growth).
  rewrite length_firstn, Hlen.
  replace (Nat.min (S t) days) with (S t) by lia. reflexivity.
Qed.

Lemma zero_vol_paths (lp mu sigma : Q) (days n : nat) (t : nat) :
  sigma == 0 -> (t < days)%nat -> forall g qp,
  In qp (qpaths lp mu sigma days n g) ->
  nth t qp 0 == lp * qpow (1 + mu) (S t).
Proof.
  intros Hs Ht. induction n as [|k IH]; intros g qp H; [destruct H|].
  cbn [qpaths] in H.
  destruct H as [<- | H]; [now apply zero_vol_path | now apply (IH _ _ H)].
Qed.

(** Bands of paths that agree at one day-offset. *)
Lemma flat_bands (days t : nat) (P : list (list Q)) (c : Q) :
  P <> [] -> (t < days)%nat ->
  (forall qp, In qp P -> length qp = days /\ nth t qp 0 == c) ->
  flat_at c t (reduce_paths days (map (map Fin) P)).
Proof.
  intros Hne Ht H.
  assert (Hlen : forall qp, In qp P -> (t < length qp)%nat).
  { intros qp Hq. destruct (H qp Hq) as (-> & _). exact Ht. }
  assert (Hcol : all_eq c (map (fun qp => nth t qp 0) P)).
  { unfold all_eq. apply Forall_forall. intros x Hx.
    apply in_map_iff in Hx. destruct Hx as (qp & <- & Hq).
    now apply H. }
  assert (Hne' : map (fun qp => nth t qp 0) P <> [])
    by (destruct P; [congruence | discriminate]).
  unfold flat_at, reduce_paths. cbn [p5 p50 p95].
  rewrite !axis0_nth by exact Ht.
  rewrite (column_finite t P Hlen).
  rewrite !percentile_finite by (try exact Hne'; lra).
  repeat split; apply qpercentile_flat; try assumption; lra.
Qed.

(** X13.  With zero volatility the simulated paths do not depend on the
    generator: the run raises nothing, and any two of its paths, of one
    run or of two runs from different generator states, show the same
    price at every day-offset. *)
Theorem zero_vol_paths_ignore_generator (lp mu sigma : Q) (days n : nat)
  (g1 g2 : rng) :
  sigma == 0 ->
  exists P1 P2 g1' g2',
    simulate_paths lp (Fin mu) (Fin sigma) days n g1 = inr (P1, g1') /\
    simulate_paths lp (Fin mu) (Fin sigma) days n g2 = inr (P2, g2') /\
    length P1 = n /\ length P2 = n /\
    forall i j t, (i < n)%nat -> (j < n)%nat -> (t < days)%nat ->
      feq (nth t (nth i P1 []) NaN) (nth t (nth j P2 []) NaN).
Proof.
  intro Hs.
  assert (Hs0 : 0 <= sigma) by lra.
  destruct (simulate_paths_finite lp mu sigma days n Hs0 g1) as (g1' & E1).
  destruct (simulate_paths_finite lp mu sigma days n Hs0 g2) as (g2' & E2).
  exists (map (map Fin) (qpaths lp mu sigma days n g1)),
         (map (map Fin) (qpaths lp mu sigma days n g2)), g1', g2'.
  split; [exact E1|]. split; [exact E2|].
  split; [now rewrite length_map, qpaths_count|].
  split; [now rewrite length_map, qpaths_count|].
  intros i j t Hi Hj Ht.
  assert (Hcell : forall g k, (k < n)%nat ->
            exists v, nth t (@nth series k
                               (map (map Fin) (qpaths lp mu sigma days n g))
                               []) NaN = Fin v
                      /\ v == lp * qpow (1 + mu) (S t)).
  { intros g k Hk.
    assert (Hin : In (nth k (qpaths lp mu sigma days n g) [])
                     (qpaths lp mu sigma days n g))
      by (apply nth_In; now rewrite qpaths_count).
    change (@nil fval) with (map Fin []). rewrite map_nth.
    rewrite nth_map_Fin
      by (rewrite (qpaths_shape _ _ _ _ _ _ _ Hin); exact Ht).
    eexists. split; [reflexivity|].
    now apply (zero_vol_paths lp mu sigma days n t Hs Ht g). }
  destruct (Hcell g1 i Hi) as (v1 & -> & H1).
  destruct (Hcell g2 j Hj) as (v2 & -> & H2).
  cbn [feq]. now rewrite H1, H2.
Qed.

Lemma zero_vol_paths_ignore_generator_witness :
  (0 # 7) == 0 /\
  exists P1 P2 g1' g2',
    simulate_paths 100 (Fin (1 # 10)) (Fin (0 # 7)) 2 3 ramp = inr (P1, g1') /\
    simulate_paths 100 (Fin (1 # 10)) (Fin (0 # 7)) 2 3 (advance 5 ramp)
    = inr (P2, g2') /\
    feq (nth 1 (nth 0 P1 []) NaN) (nth 1 (nth 2 P2 []) NaN).
Proof.
  assert (Hs : (0 # 7) == 0) by reflexivity.
  split; [exact Hs|].
  destruct (zero_vol_paths_ignore_generator
              100 (1 # 10) (0 # 7) 2 3 ramp (advance 5 ramp) Hs)
    as (P1 & P2 & g1' & g2' & E1 & E2 & _ & _ & H).
  exists P1, P2, g1', g2'. split; [exact E1|]. split; [exact E2|].
  apply H; lia.
Defined.

(** ** The median splits the defined volatilities *)

Lemma fle_total (x y : fval) :
  isna x = false -> isna y = false -> fle x y = false -> fle y x = true.
Proof.
  destruct x as [a| | |], y as [b| | |]; cbn [isna fle]; intros Hx Hy H;
    try reflexivity; try discriminate.
  apply Qle_bool_iff. apply Qlt_le_weak, Qnot_le_lt. intro C.
  apply Qle_bool_iff in C. congruence.
Qed.

Lemma fle_trans (x y z : fval) :
  fle x y = true -> fle y z = true -> fle x z = true.
Proof.
  destruct x as [a| | |], y as [b| | |], z as [c| | |]; cbn [fle];
    intros H1 H2; try reflexivity; try discriminate.
  apply Qle_bool_iff in H1, H2. apply Qle_bool_iff. lra.
Qed.

Lemma flt_fle_trans (m x y : fval) :
  flt m x = true -> fle x y = true -> flt m y = true.
Proof.
  destruct m as [c| | |], x as [a| | |], y as [b| | |]; cbn [flt fle];
    intros H1 H2; try reflexivity; try discriminate.
  apply Qltb_lt in H1. apply Qle_bool_iff in H2. apply Qltb_lt. lra.
Qed.

Lemma finsert_In (x : fval) (l : list fval) (y : fval) :
  In y (finsert x l) -> y = x \/ In y l.
Proof.
  induction l as [|z t IH]; cbn [finsert].
  - intros [<- | []]. now left.
  - destruct (fle x z).
    + intros [<- | H]; [now left | now right].
    + intros [<- | H]; [right; now left|].
      destruct (IH H) as [-> | H']; [now left | right; now right].
Qed.

Lemma fsort_In (l : list fval) (y : fval) : In y (fsort l) -> In y l.
Proof.
  induction l as [|x t IH]; [intros []|].
  unfold fsort in *. cbn [fold_right]. intro H.
  destruct (finsert_In _ _ _ H) as [-> | H']; [now left | right; auto].
Qed.

Lemma finsert_sorted (x : fval) (l : list fval) :
  isna x = false -> (forall y, In y l -> isna y = false) ->
  fsorted l -> fsorted (finsert x l).
Proof.
  unfold fsorted. intro Hx.
  induction l as [|y t IH]; intros Hl H; cbn [finsert].
  - repeat constructor.
  - inversion H as [|? ? Ht Hy]; subst.
    destruct (fle x y) eqn:E.
    + constructor; [exact H|]. constructor; [exact E|].
      rewrite Forall_forall in *. intros z Hz.
      exact (fle_trans _ _ _ E (Hy z Hz)).
    + assert (Hyx : fle y x = true).
      { apply fle_total; [exact Hx | apply Hl; now left | exact E]. }
      constructor; [apply IH; [intros z Hz; apply Hl; now right | exact Ht]|].
      rewrite Forall_forall in *. intros z Hz.
      destruct (finsert_In _ _ _ Hz) as [-> | Hz']; [exact Hyx | auto].
Qed.

Lemma fsort_sorted (l : list fval) :
  (forall y, In y l -> isna y = false) -> fsorted (fsort l).
Proof.
  induction l as [|x t IH]; intro H; [constructor|].
  unfold fsort in *. cbn [fold_right]. apply finsert_sorted.
  - apply H. now left.
  - intros y Hy. apply H. right. now apply fsort_In.
  - apply IH. intros y Hy. apply H. now right.
Qed.

Lemma finsert_filter_length (f : fval -> bool) (x : fval) (l : list fval) :
  length (filter f (finsert x l)) = length (filter f (x :: l)).
Proof.
  induction l as [|y t IH]; [reflexivity|].
  cbn [finsert]. destruct (fle x y); [reflexivity|].
  cbn [filter] in *. destruct (f y), (f x); cbn [length] in *; lia.
Qed.

Lemma fsort_filter_length (f : fval -> bool) (l : list fval) :
  length (filter f (fsort l)) = length (filter f l).
Proof.
  induction l as [|x t IH]; [reflexivity|].
  unfold fsort in *. cbn [fold_right].
  rewrite finsert_filter_length. cbn [filter].
  destruct (f x); cbn [length]; now rewrite IH.
Qed.

Lemma fsort_length (l : list fval) : length (fsort l) = length l.
Proof.
  pose proof (fsort_filter_length (fun _ => true) l) as H.
  assert (E : forall s : list fval, filter (fun _ => true) s = s).
  { induction s as [|a s IHs]; [reflexivity|]. cbn [filter]. now rewrite IHs. }
  now rewrite !E in H.
Qed.

Lemma fsorted_nth (s : list fval) : forall i j,
  fsorted s -> (i < j)%nat -> (j < length s)%nat ->
  fle (nth i s NaN) (nth j s NaN) = true.
Proof.
  unfold fsorted.
  induction s as [|x t IH]; intros i j Hs Hij Hj; [simpl in Hj; lia|].
  inversion Hs as [|? ? Ht Hx]; subst.
  destruct j as [|j]; [lia|]. simpl in Hj. destruct i as [|i].
  - cbn [nth]. rewrite Forall_forall in Hx. apply Hx, nth_In. lia.
  - cbn [nth]. apply IH; [exact Ht | lia | lia].
Qed.

(** In a sorted list, once cell [k] is not above [m], at most the cells
    after it are. *)
Lemma above_after (m : fval) (s : list fval) (k : nat) :
  fsorted s -> (k < length s)%nat -> flt m (nth k s NaN) = false ->
  (length (filter (flt m) s) <= length s - S k)%nat.
Proof.
  intros Hs Hk Hm.
  rewrite <- (firstn_skipn (S k) s) at 1.
  rewrite filter_app, length_app.
  rewrite (filter_none (flt m) (firstn (S k) s)).
  - cbn [length]. pose proof (filter_length_le (flt m) (skipn (S k) s)).
    rewrite length_skipn in H. lia.
  - intros x Hx. apply (In_nth _ _ NaN) in Hx.
    destruct Hx as (i & Hi & <-). rewrite length_firstn in Hi.
    assert (E : nth i (firstn (S k) s) NaN = nth i s NaN).
    { rewrite <- (firstn_skipn (S k) s) at 2.
      symmetry. apply app_nth1. rewrite length_firstn. lia. }
    rewrite E. destruct (flt m (nth i s NaN)) eqn:F; [|reflexivity].
    destruct (Nat.eq_dec i k) as [-> | Hne]; [congruence|].
    assert (fle (nth i s NaN) (nth k s NaN) = true)
      by (apply fsorted_nth; [exact Hs | lia | lia]).
    pose proof (flt_fle_trans _ _ _ F H). congruence.
Qed.

Lemma flt_irrefl (x : fval) : flt x x = false.
Proof.
  destruct x as [a| | |]; cbn [flt]; try reflexivity.
  apply Qltb_ge. lra.
Qed.

Lemma midpoint_not_above_lower (a b : fval) :
  fle a b = true -> flt (fdiv (fadd a b) (Fin 2)) a = false.
Proof.
  destruct a as [x| | |], b as [y| | |]; cbn [fle]; intro H;
    try discriminate; try reflexivity.
  apply Qle_bool_iff in H. cbn [fadd]. unfold fdiv.
  rewrite Qeq_bool_false by (intro C; discriminate C).
  cbn [flt]. apply Qltb_ge.
  apply Qle_shift_div_l; lra.
Qed.

Lemma filter_flt_dropna (m : fval) (s : series) :
  filter (flt m) (dropna s) = filter (flt m) s.
Proof.
  unfold dropna. rewrite filter_filter. apply filter_ext.
  intro x. destruct x, m; reflexivity.
Qed.

(** Strictly above the median lie at most half of the present cells. *)
Lemma above_median_at_most_half (s : series) :
  (2 * length (filter (flt (median s)) s) <= count s)%nat.
Proof.
  unfold count. rewrite <- (filter_flt_dropna (median s) s).
  rewrite <- (fsort_filter_length (flt (median s)) (dropna s)).
  rewrite <- (fsort_length (dropna s)).
  assert (Hna : forall y, In y (dropna s) -> isna y = false).
  { intros y Hy. unfold dropna in Hy. apply filter_In in Hy.
    destruct Hy as (_ & Hy). unfold notna in Hy.
    now apply negb_true_iff in Hy. }
  pose proof (fsort_sorted _ Hna) as Hs.
  unfold median. set (xs := fsort (dropna s)) in *.
  destruct (length xs =? 0)%nat eqn:E0.
  - apply Nat.eqb_eq in E0. pose proof (filter_length_le (flt NaN) xs). lia.
  - apply Nat.eqb_neq in E0.
    pose proof (Nat.div_mod_eq (length xs) 2) as Hdiv.
    destruct (Nat.odd (length xs)) eqn:Eodd.
    + assert (Hm : length xs mod 2 = 1%nat).
      { apply Nat.odd_spec in Eodd. destruct Eodd as (k & Hk).
        rewrite Hk, Nat.add_comm, Nat.mul_comm. apply Nat.Div0.mod_add. }
      pose proof (above_after (nth (length xs / 2) xs NaN) xs
                              (length xs / 2) Hs) as H.
      specialize (H ltac:(lia) (flt_irrefl _)). lia.
    + assert (Hm : length xs mod 2 = 0%nat).
      { rewrite <- Nat.negb_even in Eodd. apply negb_false_iff in Eodd.
        apply Nat.even_spec in Eodd. destruct Eodd as (k & Hk).
        rewrite Hk. rewrite Nat.mul_comm. apply Nat.Div0.mod_mul. }
      assert (Hk : (length xs / 2 - 1 < length xs)%nat) by lia.
      pose proof (above_after
        (fdiv (fadd (nth (length xs / 2 - 1) xs NaN)
                    (nth (length xs / 2) xs NaN)) (Fin 2))
        xs (length xs / 2 - 1) Hs Hk) as H.
      assert (Hle : fle (nth (length xs / 2 - 1) xs NaN)
                        (nth (length xs / 2) xs NaN) = true)
        by (apply fsorted_nth; [exact Hs | lia | lia]).
      specialize (H (midpoint_not_above_lower _ _ Hle)). lia.
Qed.

Lemma label_count_groupby (sqrtQ : Q -> Q)
  (df : list (fval * fval * RegimeLabel)) (l : RegimeLabel) :
  label_count l (groupby_agg sqrtQ df) = count (group_returns l df).
Proof.
  unfold groupby_agg, group_returns. cbn [flat_map].
  destruct (filter (fun row => label_eqb (snd row) HighVolatility) df) eqn:EH;
    destruct (filter (fun row => label_eqb (snd row) LowVolatility) df) eqn:EL;
    destruct l; rewrite ?EH, ?EL;
    cbn [app label_count fold_right fst snd label_eqb agg s_count map count
         dropna filter length]; lia.
Qed.

Lemma combine_map_self {A B : Type} (h : A -> B) (l : list A) :
  combine l (map h l) = map (fun v => (v, h v)) l.
Proof.
  induction l as [|x t IH]; [reflexivity|]. cbn [map combine]. now rewrite IH.
Qed.

(** The rows labelled High are those whose rolling volatility is strictly
    above the threshold. *)
Lemma high_rows_count (sqrtQ : Q -> Q) (rets : series) :
  length (filter (fun p => vol_defined p && has_label HighVolatility p)
                 (table_rows sqrtQ rets))
  = length (filter (flt (vol_threshold sqrtQ rets)) (rolling_vol sqrtQ rets)).
Proof.
  unfold table_rows, vol_defined, has_label.
  rewrite (filter_snd_combine
             (fun q : fval * RegimeLabel =>
                notna (fst q) && label_eqb (snd q) HighVolatility)).
  - unfold regime. cbv zeta. rewrite combine_map_self, filter_map_swap.
    rewrite length_map. f_equal. apply filter_ext. intro v.
    cbn [fst snd]. unfold fgt.
    destruct (flt (vol_threshold sqrtQ rets) v) eqn:E; cbn [label_eqb].
    + destruct v; [reflexivity | reflexivity | reflexivity |].
      destruct (vol_threshold sqrtQ rets); discriminate E.
    + apply andb_false_r.
  - rewrite length_combine, rolling_vol_length, regime_length. lia.
Qed.

(** X14.  In the regime table the HighVolatility count never exceeds the
    LowVolatility count: a row is High only when its rolling volatility is
    strictly above the median of the defined rolling volatilities, and at
    most half of them are. *)
Theorem high_regime_never_outnumbers_low (sqrtQ : Q -> Q) (rets : series) :
  (label_count HighVolatility (regime_stats sqrtQ rets)
   <= label_count LowVolatility (regime_stats sqrtQ rets))%nat.
Proof.
  unfold regime_stats. rewrite !label_count_groupby.
  rewrite !group_returns_members, !members_count.
  pose proof (split_by_label vol_defined (fun p => snd (snd p))
                             (table_rows sqrtQ rets)) as Hsplit.
  fold (has_label HighVolatility) in Hsplit.
  pose proof (rows_defined_count sqrtQ rets) as Hall.
  pose proof (high_rows_count sqrtQ rets) as Hhigh.
  pose proof (above_median_at_most_half (rolling_vol sqrtQ rets)) as Hhalf.
  fold (vol_threshold sqrtQ rets) in Hhalf.
  unfold has_label in *. lia.
Qed.

(** ** Date-column detection: a file without data rows *)

Lemma find_date_col_no_rows (cell : Type)
  (parse_cell : cell -> option (option Z)) (nrows : nat)
  (cols : dataframe cell) :
  (forall nm col, In (nm, col) cols -> col = []) ->
  find_date_col parse_cell nrows cols = None.
Proof.
  induction cols as [|[nm0 c0] rest IH]; intro H; [reflexivity|].
  rewrite find_date_col_step.
  rewrite (H nm0 c0 (or_introl eq_refl)).
  unfold qualifies, majority_parses. cbn [forallb filter length andb].
  rewrite Nat.mul_0_r. cbn [Nat.ltb Nat.leb].
  apply IH. intros nm col Hin. apply (H nm col). now right.
Qed.

(** X15.  A file that has columns but no data row is rejected: whatever
    the columns are, detection ends with ValueError "No valid date column
    detected.", because no column has more parsed dates than half of zero
    rows. *)
Theorem header_only_file_is_rejected (cell : Type)
  (parse_cell : cell -> option (option Z)) (df : dataframe cell) :
  (forall nm col, In (nm, col) df -> col = []) ->
  detect_date_col parse_cell df
  = inl (ValueError "No valid date column detected.").
Proof.
  intro H. unfold detect_date_col.
  now rewrite (find_date_col_no_rows cell parse_cell _ df H).
Qed.

Lemma header_only_file_is_rejected_witness :
  let df : dataframe raw_cell := [("Date"%string, []); ("Close"%string, [])] in
  (forall nm col, In (nm, col) df -> col = []) /\
  detect_date_col parse_raw df
  = inl (ValueError "No valid date column detected.").
Proof.
  intro df.
  assert (H : forall nm col, In (nm, col) df -> col = []).
  { intros nm col Hin. simpl in Hin.
    destruct Hin as [E | [E | []]]; now injection E. }
  split; [exact H|].
  exact (header_only_file_is_rejected raw_cell parse_raw df H).
Defined.

(** ** The price series out of the price columns *)

Lemma mean_nonneg (l : list Q) :
  l <> [] -> (forall x, In x l -> 0 <= x) ->
  fle (Fin 0) (mean (map Fin l)) = true.
Proof.
  intros Hne H. destruct (mean_finite l Hne) as (m & -> & Em).
  assert (Hpos : 0 < Qnat (length l)).
  { apply Qnat_pos. destruct l; [congruence | simpl; lia]. }
  pose proof (qsum_nonneg l H) as Hs.
  cbn [fle]. apply Qle_bool_iff. rewrite Em.
  apply Qle_shift_div_l; [exact Hpos | lra].
Qed.

Lemma complete_row_nonneg (row : series) :
  forallb notna row = true ->
  (forall x, In x row -> x = NaN \/ exists v, x = Fin v /\ 0 <= v) ->
  nonneg_finite row.
Proof.
  intros Hc H x Hx. rewrite forallb_forall in Hc.
  destruct (H x Hx) as [-> | Hv]; [|exact Hv].
  specialize (Hc NaN Hx). discriminate Hc.
Qed.

Lemma nonneg_finite_map_Fin (s : series) :
  nonneg_finite s ->
  exists l, s = map Fin l /\ forall x, In x l -> 0 <= x.
Proof.
  induction s as [|x t IH]; intro H;
    [exists []; split; [reflexivity | intros ? []]|].
  destruct (H x (or_introl eq_refl)) as (v & -> & Hv).
  destruct IH as (l & -> & Hl); [intros y Hy; apply H; now right|].
  exists (v :: l). split; [reflexivity|].
  intros y [<- | Hy]; [exact Hv | now apply Hl].
Qed.

(** X16.  When every quoted price is either missing or a number that is
    not negative, the price series the script analyses, for one price
    column as for the equal-weighted mean of several, has one value per
    row that has no missing price, and none of its values is NaN or
    negative. *)
Theorem price_series_never_negative (price_cols : list string)
  (rows : list series) :
  price_cols <> [] ->
  (forall row, In row rows -> length row = length price_cols) ->
  (forall row x, In row rows -> In x row ->
     x = NaN \/ exists v, x = Fin v /\ 0 <= v) ->
  (forall x, In x (select_price_series price_cols rows) ->
     fle (Fin 0) x = true) /\
  length (select_price_series price_cols rows)
  = length (filter (forallb notna) rows).
Proof.
  intros Hne Hlen Hcells. unfold select_price_series.
  assert (Hrow : forall row, In row (filter (forallb notna) rows) ->
                   row <> [] /\ nonneg_finite row).
  { intros row Hr. apply filter_In in Hr. destruct Hr as (Hin & Hc).
    split.
    - intro C. subst row. specialize (Hlen [] Hin).
      destruct price_cols; [congruence | discriminate Hlen].
    - apply complete_row_nonneg; [exact Hc|].
      intros x Hx. now apply (Hcells row x). }
  destruct (length price_cols =? 1)%nat; (split; [|apply length_map]);
    intros x Hx; apply in_map_iff in Hx; destruct Hx as (row & <- & Hr);
    destruct (Hrow row Hr) as (Hne' & Hw).
  - destruct row as [|c r]; [congruence|]. cbn [nth].
    destruct (Hw c (or_introl eq_refl)) as (v & -> & Hv).
    cbn [fle]. now apply Qle_bool_iff.
  - destruct (nonneg_finite_map_Fin row Hw) as (l & -> & Hl).
    assert (Hl0 : l <> []) by (destruct l; [now destruct Hne' | discriminate]).
    now apply mean_nonneg.
Qed.

Lemma price_series_never_negative_witness :
  let rows := [[Fin 10; Fin 20]; [NaN; Fin 5]; [Fin 12; Fin 14]] in
  let cols := ["A"%string; "B"%string] in
  cols <> [] /\
  (forall row, In row rows -> length row = length cols) /\
  (forall x, In x (select_price_series cols rows) -> fle (Fin 0) x = true) /\
  length (select_price_series cols rows) = 2%nat.
Proof.
  intros rows cols.
  assert (Hne : cols <> []) by discriminate.
  assert (Hlen : forall row, In row rows -> length row = length cols).
  { intros row Hr. simpl in Hr.
    repeat (destruct Hr as [<- | Hr]; [reflexivity|]). destruct Hr. }
  assert (Hc : forall row x, In row rows -> In x row ->
             x = NaN \/ exists v, x = Fin v /\ 0 <= v).
  { intros row x Hr Hx. simpl in Hr.
    repeat (destruct Hr as [<- | Hr];
            [simpl in Hx;
             repeat (destruct Hx as [<- | Hx];
                     [first [ now left
                            | right; eexists; split;
                              [reflexivity | discriminate] ]|]);
             destruct Hx|]).
    destruct Hr. }
  split; [exact Hne | split; [exact Hlen|]].
  exact (price_series_never_negative cols rows Hne Hlen Hc).
Defined.

(** ** A flat price history *)

Lemma qsum_all_eq (c : Q) (l : list Q) :
  all_eq c l -> qsum l == Qnat (length l) * c.
Proof.
  unfold qsum. induction l as [|x t IH]; intro H.
  - cbn [fold_right length]. change (Qnat 0) with 0. ring.
  - inversion H as [|? ? Hx Ht]; subst.
    cbn [fold_right length]. rewrite (IH Ht), Hx, Qnat_S. ring.
Qed.

(** The value of the sample variance on finite cells. *)
Lemma var_finite_value (l : list Q) (m : Q) :
  (2 <= length l)%nat -> mean (map Fin l) = Fin m ->
  exists v, var (map Fin l) = Fin v /\
            v == qsum (map (fun x => (m - x) * (m - x)) l)
                 / Qnat (length l - 1).
Proof.
  intros Hlen Hm. unfold var.
  rewrite (all_finite_notna _ (map_Fin_all_finite l)), length_map.
  assert (E : (length l <=? 1)%nat = false) by (apply Nat.leb_gt; lia).
  rewrite E, Hm.
  assert (Esq : map (sq_dev (Fin m)) (map Fin l)
                = map Fin (map (fun x => (m - x) * (m - x)) l))
    by (rewrite !map_map; reflexivity).
  rewrite Esq.
  destruct (fsum_finite (map (fun x => (m - x) * (m - x)) l)) as (s & -> & Hs).
  rewrite fdiv_count by lia. eexists. split; [reflexivity|].
  now rewrite Hs.
Qed.

Lemma ratios_constant (p : Q) (k : nat) :
  0 < p -> ratios p (repeat p k) = map Fin (repeat (p / p - 1) k).
Proof.
  intro Hp. induction k as [|k IH]; [reflexivity|].
  cbn [repeat ratios map]. rewrite ratio_finite by lra. now rewrite IH.
Qed.

Lemma returns_constant (p : Q) (k : nat) :
  0 < p -> returns (repeat p (S k)) = map Fin (repeat (p / p - 1) k).
Proof.
  intro Hp. cbn [repeat]. rewrite returns_cons; [now apply ratios_constant|].
  apply positive_no_zero_pair. intros x Hx.
  change (p :: repeat p k) with (repeat p (S k)) in Hx.
  apply repeat_spec in Hx. now subst x.
Qed.

Lemma all_eq_repeat (c d : Q) (k : nat) : d == c -> all_eq c (repeat d k).
Proof.
  intro H. unfold all_eq. apply Forall_forall. intros x Hx.
  apply repeat_spec in Hx. now subst x.
Qed.

Lemma qpow_one (x : Q) (n : nat) : x == 1 -> qpow x n == 1.
Proof.
  intro H. induction n as [|k IH]; [reflexivity|].
  cbn [qpow]. rewrite IH, H. ring.
Qed.

Lemma feq_Fin_eq (x : fval) (c d : Q) :
  c == d -> feq x (Fin c) -> feq x (Fin d).
Proof.
  intros H. destruct x; cbn [feq]; try tauto. intro E. now rewrite E.
Qed.

Lemma flat_at_eq (c d : Q) (t : nat) (b : band) :
  c == d -> flat_at c t b -> flat_at d t b.
Proof.
  intros H (H1 & H2 & H3). unfold flat_at.
  repeat split; eapply feq_Fin_eq; eassumption.
Qed.

(** The loop over the horizons, for a property every run has. *)
Lemma run_forecasts_each (lp : Q) (mu sigma : fval) (n : nat)
  (holds : nat -> band -> Prop) :
  (forall days g, exists b g',
      simulate lp mu sigma days n g = inr (b, g') /\ holds days b) ->
  forall (horizons : list (string * nat)) (g : rng),
  exists out g',
    run_forecasts lp mu sigma n horizons g = inr (out, g') /\
    map fst out = map fst horizons /\
    forall label b, In (label, b) out ->
      exists days, In (label, days) horizons /\ holds days b.
Proof.
  intro Hrun. induction horizons as [|[label days] rest IH]; intro g.
  - exists [], g. repeat split. intros ? ? [].
  - destruct (Hrun days g) as (b & g1 & Eb & Hb).
    destruct (IH g1) as (out & g2 & Eout & Hlabels & Hall).
    exists ((label, b) :: out), g2.
    cbn [run_forecasts]. unfold bind. rewrite Eb. cbn [fst snd].
    rewrite Eout. cbn [fst snd map]. split; [reflexivity|].
    split; [now rewrite Hlabels|].
    intros l b' [H | H].
    + injection H as <- <-. exists days. split; [now left | exact Hb].
    + destruct (Hall l b' H) as (d & Hin & Hd).
      exists d. split; [now right | exact Hd].
Qed.

Lemma zero_vol_every_offset (lp mu sigma : Q) (days n : nat) (g : rng) :
  sigma == 0 -> (0 < n)%nat ->
  exists b g',
    simulate lp (Fin mu) (Fin sigma) days n g = inr (b, g') /\
    forall t, (t < days)%nat -> flat_at (lp * qpow (1 + mu) (S t)) t b.
Proof.
  intros Hs Hn.
  assert (Hs0 : 0 <= sigma) by lra.
  destruct (simulate_paths_finite lp mu sigma days n Hs0 g) as (g' & E).
  exists (reduce_paths days (map (map Fin) (qpaths lp mu sigma days n g))), g'.
  rewrite simulate_unfold, E. split; [reflexivity|].
  intros t Ht. apply flat_bands; [|exact Ht|].
  - intro C. apply (f_equal (@length _)) in C.
    rewrite qpaths_count in C. simpl in C. lia.
  - intros qp Hq. split; [now apply (qpaths_shape _ _ _ _ _ _ _ Hq)|].
    now apply (zero_vol_paths lp mu sigma days n t Hs Ht g).
Qed.

(** X17.  A price history that stays at one positive price p over at least
    three rows projects flat: with a square root that maps zero to zero
    and at least one simulation, the script raises nothing and p5, p50 and
    p95 equal p at every day-offset of every horizon. *)
Theorem flat_history_projects_flat (sqrtQ : Q -> Q) (p : Q) (k n : nat)
  (g : rng) :
  (forall q, q == 0 -> sqrtQ q == 0) ->
  0 < p -> (2 <= k)%nat -> (0 < n)%nat ->
  exists out g',
    snd (run_script sqrtQ (repeat p (S k)) n g) = inr (out, g') /\
    map fst out = map fst forecast_horizons /\
    forall label b, In (label, b) out ->
      exists days, In (label, days) forecast_horizons /\
                   forall t, (t < days)%nat -> flat_at p t b.
Proof.
  intros Hsqrt Hp Hk Hn.
  pose proof (returns_constant p k Hp) as E.
  set (c := p / p - 1) in *.
  assert (Hc : c == 0) by (unfold c; field; lra).
  assert (Hall : all_eq 0 (repeat c k)) by now apply all_eq_repeat.
  assert (Hne : repeat c k <> []) by (destruct k; [lia | discriminate]).
  assert (Hlen : length (repeat c k) = k) by apply repeat_length.
  destruct (mean_finite _ Hne) as (m & Hm & Em).
  assert (Hm0 : m == 0).
  { rewrite Em, (qsum_all_eq 0 _ Hall). field.
    rewrite Hlen. pose proof (Qnat_pos k ltac:(lia)). lra. }
  destruct (var_finite_value (repeat c k) m ltac:(lia) Hm) as (v & Hv & Ev).
  assert (Hv0 : v == 0).
  { rewrite Ev. rewrite (qsum_all_eq 0).
    - field. rewrite Hlen. pose proof (Qnat_pos (k - 1) ltac:(lia)). lra.
    - unfold all_eq. apply Forall_forall. intros x Hx.
      apply in_map_iff in Hx. destruct Hx as (y & <- & Hy).
      apply repeat_spec in Hy. subst y. rewrite Hm0, Hc. ring. }
  unfold run_script, analyse. cbn [snd].
  rewrite iloc_last_nonempty by discriminate.
  unfold bind at 2. unfold bind at 1. cbn [last_price mean_return vol].
  unfold std. rewrite E, Hm, Hv, fsqrt_nonneg by lra.
  assert (Hlast : last (repeat p (S k)) 0 = p).
  { clear. induction k as [|k IH]; [reflexivity|].
    change (repeat p (S (S k))) with (p :: repeat p (S k)).
    cbn [last]. exact IH. }
  rewrite Hlast.
  apply (run_forecasts_each p (Fin m) (Fin (sqrtQ v)) n
           (fun days b => forall t, (t < days)%nat -> flat_at p t b)).
  intros days g0.
  destruct (zero_vol_every_offset p m (sqrtQ v) days n g0
              (Hsqrt v Hv0) Hn) as (b & g' & Eb & Hb).
  exists b, g'. split; [exact Eb|].
  intros t Ht. apply (flat_at_eq (p * qpow (1 + m) (S t))); [|now apply Hb].
  rewrite qpow_one by (rewrite Hm0; ring). ring.
Qed.

Lemma sqrt_approx_zero (q : Q) : q == 0 -> sqrt_approx q == 0.
Proof.
  intro H. unfold sqrt_approx.
  assert (E : Qfloor (q * 1000000000000) = 0%Z).
  { assert (E0 : q * 1000000000000 == 0) by (rewrite H; ring).
    rewrite (Qfloor_comp _ _ E0). reflexivity. }
  rewrite E. reflexivity.
Qed.

Lemma flat_history_projects_flat_witness :
  (forall q, q == 0 -> sqrt_approx q == 0) /\
  0 < 50 /\ (2 <= 2)%nat /\ (0 < 2)%nat /\
  exists out g',
    snd (run_script sqrt_approx (repeat 50 3) 2 ramp) = inr (out, g') /\
    map fst out = map fst forecast_horizons.
Proof.
  assert (Hp : 0 < 50) by reflexivity.
  assert (Hk : (2 <= 2)%nat) by lia.
  assert (Hn : (0 < 2)%nat) by lia.
  split; [exact sqrt_approx_zero | split; [exact Hp | split; [exact Hk |
    split; [exact Hn|]]]].
  destruct (flat_history_projects_flat sqrt_approx 50 2 2 ramp
              sqrt_approx_zero Hp Hk Hn) as (out & g' & Hrun & Hlab & _).
  exists out, g'. split; [exact Hrun | exact Hlab].
Defined.
